(** * CineGraph: the force-directed graph view

    A shallow embedding of [GraphView] (the second component kept in
    [src/components/FilmCard.tsx]): the graph builder of the first
    [useEffect], the physics part of [animate] and the pointer handlers.

    Conventions of the embedding.
    - A JavaScript [number] that carries a coordinate, a velocity, a radius
      or a rating is a real number ([R]): arithmetic is exact, and NaN,
      infinities and rounding are outside the model.  [Film.id] is an
      integer key ([Z]); a template literal prints it in decimal.
    - The node array is a [list]; a reference to one of its objects
      ([draggingRef.current]) is the index of that object in the array.
    - [Math.random] is an oracle [random : nat -> R], read in call order.
    - Canvas drawing has no effect on the simulation state and is left out. *)

From Stdlib Require Import Reals Lra.
From stdpp Require Import base decidable option list strings gmap pretty.

Set Warnings "-clear-no-such-hyp".

(** ** Data model *)

Module Film.
(** [interface Film] of [src/types.ts], restricted to the fields that
    [GraphView] reads. *)
Record t := mk {
  id : Z;
  title : string;
  rating : R;
  genres : list string;
  directors : list string
}.
End Film.

Inductive NodeType := film | genre | director.

#[global] Instance NodeType_eq_dec : EqDecision NodeType.
Proof. solve_decision. Defined.

Module Node.
Record t := mk {
  id : string;
  type : NodeType;
  label : string;
  x : R;
  y : R;
  vx : R;
  vy : R;
  radius : R;
  color : string;
  data : option Film.t
}.

(** In-place field assignments [n.x = v], [n.vx = v], ... *)
Definition set_x (v : R) (n : t) : t :=
  mk (id n) (type n) (label n) v (y n) (vx n) (vy n) (radius n) (color n) (data n).
Definition set_y (v : R) (n : t) : t :=
  mk (id n) (type n) (label n) (x n) v (vx n) (vy n) (radius n) (color n) (data n).
Definition set_vx (v : R) (n : t) : t :=
  mk (id n) (type n) (label n) (x n) (y n) v (vy n) (radius n) (color n) (data n).
Definition set_vy (v : R) (n : t) : t :=
  mk (id n) (type n) (label n) (x n) (y n) (vx n) v (radius n) (color n) (data n).
End Node.

Module Link.
Record t := mk { source : string; target : string }.
End Link.

(** [a || b] on numbers: [a] unless it is falsy, that is zero. *)
Definition jsOr (a b : R) : R := if Req_dec_T a 0 then b else a.

#[global] Instance Rlt_decision (a b : R) : Decision (a < b)%R := Rlt_dec a b.
#[global] Instance Rgt_decision (a b : R) : Decision (a > b)%R := Rgt_dec a b.

(** ** Graph builder (the first [useEffect]) *)

Module Builder.

(** The three locals [nodes], [links], [nodeMap] of the effect, and the
    number of [Math.random] calls made so far. *)
Record t := mk {
  nodes : list Node.t;
  links : list Link.t;
  nodeMap : gset string;
  calls : nat
}.

Definition empty : t := mk [] [] ∅ 0.

Definition nodeColor (type : NodeType) : string :=
  match type with
  | film => "#0ea5e9"
  | genre => "#ec4899"
  | director => "#fbbf24"
  end.

Definition nodeRadius (type : NodeType) (data : option Film.t) : R :=
  match type with
  | film =>
      (5 + jsOr (match data with Some f => Film.rating f | None => 0 end) 0 * 0.8)%R
  | genre => 7%R
  | director => 6%R
  end.

Definition pushLink (source target : string) (st : t) : t :=
  mk (nodes st) (links st ++ [Link.mk source target]) (nodeMap st) (calls st).

Section WithRandom.
Variable random : nat → R.

Definition addNode (id : string) (type : NodeType) (label : string)
    (data : option Film.t) (st : t) : t :=
  if decide (id ∈ nodeMap st) then st
  else
    let color := nodeColor type in
    let radius := nodeRadius type data in
    mk (nodes st ++
          [Node.mk id type label
             (random (calls st) * 800)%R (random (S (calls st)) * 600)%R
             0%R 0%R radius color data])
       (links st) ({[id]} ∪ nodeMap st) (2 + calls st).

Definition addGenre (filmId : string) (st : t) (g : string) : t :=
  let genreId := "g-" +:+ g in
  pushLink filmId genreId (addNode genreId genre g None st).

(** The body of [films.forEach]. *)
Definition addFilm (st : t) (f : Film.t) : t :=
  let filmId := "f-" +:+ pretty (Film.id f) in
  let st := addNode filmId film (Film.title f) (Some f) st in
  let st := foldl (addGenre filmId) st (Film.genres f) in
  match Film.directors f with
  | d :: _ =>
      let dirId := "d-" +:+ d in
      pushLink filmId dirId (addNode dirId director d None st)
  | [] => st
  end.

(** The "initial center layout": when the container is mounted, with
    bounding rectangle [width] x [height], every node is placed again
    around the midpoint. *)
Definition centerLayout (container : option (R * R)) (st : t) : t :=
  match container with
  | Some (width, height) =>
      let cx := (width / 2)%R in
      let cy := (height / 2)%R in
      mk (imap (λ i n,
             Node.set_y (cy + (random (calls st + 2 * i + 1) - 0.5) * 200)%R
               (Node.set_x (cx + (random (calls st + 2 * i) - 0.5) * 200)%R n))
            (nodes st))
         (links st) (nodeMap st) (calls st + 2 * length (nodes st))
  | None => st
  end.

Definition buildGraph (films : list Film.t) (container : option (R * R)) : t :=
  centerLayout container (foldl addFilm empty films).

End WithRandom.
End Builder.

(** ** Force simulation ([animate]) and pointer handlers *)

Module Sim.
Local Open Scope R_scope.

(** The refs and state that [animate] and the handlers share.
    [dragging] is [draggingRef.current] as an index into [nodes];
    [hoveredNode] is [hoveredNode?.id]; [canvas] is the backing size
    [(canvas.width, canvas.height)] when the canvas and its 2d context
    exist. *)
Record t := mk {
  nodes : list Node.t;
  links : list Link.t;
  dragging : option nat;
  hoveredNode : option string;
  mouse : R * R;
  canvas : option (R * R);
  devicePixelRatio : R
}.

Definition set_nodes (ns : list Node.t) (s : t) : t :=
  mk ns (links s) (dragging s) (hoveredNode s) (mouse s) (canvas s)
     (devicePixelRatio s).

(** Physics constants *)
Definition repulsion : R := 1500.
Definition springLength : R := 100.
Definition k : R := 0.08.
Definition damping : R := 0.85.
Definition centerForce : R := 0.03.
Definition maxVelocity : R := 15.

(** [n.vx += fx; n.vy += fy] and [n.vx -= fx; n.vy -= fy] *)
Definition push (fx fy : R) (n : Node.t) : Node.t :=
  Node.set_vy (Node.vy n + fy) (Node.set_vx (Node.vx n + fx) n).
Definition pull (fx fy : R) (n : Node.t) : Node.t :=
  Node.set_vy (Node.vy n - fy) (Node.set_vx (Node.vx n - fx) n).

(** [Math.sqrt(dx * dx + dy * dy) || 1] *)
Definition dist (dx dy : R) : R := jsOr (sqrt (dx * dx + dy * dy)) 1.

Section Step.
Variables width height : R.
Variable drag : option nat.
Variable hovered : option string.

(** *** 1. Forces *)

Definition centerGravity (a : Node.t) : Node.t :=
  let dxC := width / 2 - Node.x a in
  let dyC := height / 2 - Node.y a in
  push (dxC * centerForce) (dyC * centerForce) a.

(** The body of the inner loop, for [a = nodes[i]] and [b = nodes[j]]. *)
Definition repel (i : nat) (ns : list Node.t) (j : nat) : list Node.t :=
  match ns !! i, ns !! j with
  | Some a, Some b =>
      let dx := Node.x a - Node.x b in
      let dy := Node.y a - Node.y b in
      let dist := dist dx dy in
      if decide (dist < 300) then
        let force := repulsion / (dist * dist) in
        let fx := dx / dist * force in
        let fy := dy / dist * force in
        alter (pull fx fy) j (alter (push fx fy) i ns)
      else ns
  | _, _ => ns
  end.

(** The body of the outer loop. *)
Definition forcesAt (ns : list Node.t) (i : nat) : list Node.t :=
  if decide (drag = Some i) then ns
  else
    let ns := alter centerGravity i ns in
    foldl (repel i) ns (seq (S i) (length ns - S i)).

Definition forces (ns : list Node.t) : list Node.t :=
  foldl forcesAt ns (seq 0 (length ns)).

(** *** Springs *)

Definition findById (id : string) (ns : list Node.t) : option (nat * Node.t) :=
  list_find (λ n, Node.id n = id) ns.

(** The body of [links.forEach]. *)
Definition spring (ns : list Node.t) (link : Link.t) : list Node.t :=
  match findById (Link.source link) ns, findById (Link.target link) ns with
  | Some (si, source), Some (ti, target) =>
      let dx := Node.x target - Node.x source in
      let dy := Node.y target - Node.y source in
      let dist := dist dx dy in
      let force := (dist - springLength) * k in
      let fx := dx / dist * force in
      let fy := dy / dist * force in
      let ns := if decide (drag ≠ Some si) then alter (push fx fy) si ns else ns in
      if decide (drag ≠ Some ti) then alter (pull fx fy) ti ns else ns
  | _, _ => ns
  end.

Definition springs (ns : list Node.t) (ls : list Link.t) : list Node.t :=
  foldl spring ns ls.

(** *** 2. Update positions *)

Definition capVelocity (n : Node.t) : Node.t :=
  let v := sqrt (Node.vx n * Node.vx n + Node.vy n * Node.vy n) in
  if decide (v > maxVelocity) then
    Node.set_vy (Node.vy n / v * maxVelocity)
      (Node.set_vx (Node.vx n / v * maxVelocity) n)
  else n.

Definition scaleVelocity (c : R) (n : Node.t) : Node.t :=
  Node.set_vy (Node.vy n * c) (Node.set_vx (Node.vx n * c) n).

Definition hoverDamp (n : Node.t) : Node.t :=
  if decide (hovered = Some (Node.id n)) then scaleVelocity 0.1 n else n.

Definition move (n : Node.t) : Node.t :=
  Node.set_y (Node.y n + Node.vy n) (Node.set_x (Node.x n + Node.vx n) n).

Definition integrate (n : Node.t) : Node.t :=
  move (hoverDamp (scaleVelocity damping (capVelocity n))).

(** Boundaries (bounce): four independent tests, in this order. *)
Definition bounceLeft (n : Node.t) : Node.t :=
  let padding := Node.radius n + 10 in
  if decide (Node.x n < padding)
  then Node.set_vx (Node.vx n * -1) (Node.set_x padding n) else n.
Definition bounceRight (n : Node.t) : Node.t :=
  let padding := Node.radius n + 10 in
  if decide (Node.x n > width - padding)
  then Node.set_vx (Node.vx n * -1) (Node.set_x (width - padding) n) else n.
Definition bounceTop (n : Node.t) : Node.t :=
  let padding := Node.radius n + 10 in
  if decide (Node.y n < padding)
  then Node.set_vy (Node.vy n * -1) (Node.set_y padding n) else n.
Definition bounceBottom (n : Node.t) : Node.t :=
  let padding := Node.radius n + 10 in
  if decide (Node.y n > height - padding)
  then Node.set_vy (Node.vy n * -1) (Node.set_y (height - padding) n) else n.

Definition bounce (n : Node.t) : Node.t :=
  bounceBottom (bounceTop (bounceRight (bounceLeft n))).

(** The body of [nodes.forEach] in step 2, for [n = nodes[i]]. *)
Definition updateNode (i : nat) (n : Node.t) : Node.t :=
  bounce (if decide (drag ≠ Some i) then integrate n else n).

Definition updatePositions (ns : list Node.t) : list Node.t :=
  imap updateNode ns.

Definition physics (ns : list Node.t) (ls : list Link.t) : list Node.t :=
  updatePositions (springs (forces ns) ls).
End Step.

(** One frame: nothing happens without a canvas; otherwise the logical
    size is the backing size over [window.devicePixelRatio || 1]. *)
Definition animate (s : t) : t :=
  match canvas s with
  | None => s
  | Some (cw, ch) =>
      let width := cw / jsOr (devicePixelRatio s) 1 in
      let height := ch / jsOr (devicePixelRatio s) 1 in
      set_nodes
        (physics width height (dragging s) (hoveredNode s) (nodes s) (links s)) s
  end.

(** *** Pointer handlers, on canvas-local coordinates *)

Definition hit (px py : R) (n : Node.t) : Prop :=
  let dx := Node.x n - px in
  let dy := Node.y n - py in
  dx * dx + dy * dy < (Node.radius n + 10) ^ 2.

#[global] Instance hit_dec px py n : Decision (hit px py n).
Proof. unfold hit. apply _. Defined.

(** [nodesRef.current.find(n => ...)] *)
Definition hitTest (ns : list Node.t) (px py : R) : option (nat * Node.t) :=
  list_find (hit px py) ns.

Definition stop (n : Node.t) : Node.t := Node.set_vy 0 (Node.set_vx 0 n).

Definition handleMouseDown (px py : R) (s : t) : t :=
  match hitTest (nodes s) px py with
  | Some (i, _) =>
      mk (alter stop i (nodes s)) (links s) (Some i) (hoveredNode s) (mouse s)
         (canvas s) (devicePixelRatio s)
  | None => s
  end.

Definition handleMouseMove (px py : R) (s : t) : t :=
  let ns :=
    match dragging s with
    | Some d => alter (λ n, stop (Node.set_y py (Node.set_x px n))) d (nodes s)
    | None => nodes s
    end in
  mk ns (links s) (dragging s)
     (match hitTest ns px py with Some (_, n) => Some (Node.id n) | None => None end)
     (px, py) (canvas s) (devicePixelRatio s).

Definition handleMouseUp (s : t) : t :=
  mk (nodes s) (links s) None (hoveredNode s) (mouse s) (canvas s)
     (devicePixelRatio s).

End Sim.


(** ** Vocabulary of the statements *)

(** The id prefix that the builder gives to each kind of node. *)
Definition kindPrefix (type : NodeType) : string :=
  match type with
  | film => "f-"
  | genre => "g-"
  | director => "d-"
  end.

(** The ids of the nodes built so far, in insertion order. *)
Definition ids (st : Builder.t) : list string := Node.id <$> Builder.nodes st.

(** A Director edge is an edge into a director node, that is, one whose
    target id has the director prefix. *)
Definition isDirectorEdge (l : Link.t) : Prop :=
  String.prefix "d-" (Link.target l) = true.

#[global] Instance isDirectorEdge_dec l : Decision (isDirectorEdge l).
Proof. unfold isDirectorEdge. apply _. Defined.

(** The edges that one film contributes, as section 4.1 of the
    specification lists them: one per genre, then one to the first
    director when there is one. *)
Definition filmId (f : Film.t) : string := "f-" +:+ pretty (Film.id f).

Definition genreLinks (f : Film.t) : list Link.t :=
  (λ g, Link.mk (filmId f) ("g-" +:+ g)) <$> Film.genres f.

Definition directorLinks (f : Film.t) : list Link.t :=
  match Film.directors f with
  | d :: _ => [Link.mk (filmId f) ("d-" +:+ d)]
  | [] => []
  end.

(** Invariant of the build loop. *)
Record wf (st : Builder.t) : Prop := mk_wf {
  wf_map : ∀ id, id ∈ Builder.nodeMap st ↔ id ∈ ids st;
  wf_nodup : NoDup (ids st);
  wf_links : ∀ l, l ∈ Builder.links st →
    Link.source l ∈ ids st ∧ Link.target l ∈ ids st;
  wf_kind : ∀ n, n ∈ Builder.nodes st →
    String.prefix (kindPrefix (Node.type n)) (Node.id n) = true
}.

(** The input of the end-to-end scenario. *)
Definition scenario : list Film.t :=
  [ Film.mk 1 "A" 8 ["Drama"] ["X"]; Film.mk 2 "B" 5 ["Drama"] ["Y"] ].

(** The velocity magnitude [Math.sqrt(n.vx * n.vx + n.vy * n.vy)]. *)
Definition speed (n : Node.t) : R :=
  sqrt (Node.vx n * Node.vx n + Node.vy n * Node.vy n).

(** The squared distance from the pointer to the center of a node. *)
Definition sqDistance (px py : R) (n : Node.t) : R :=
  ((Node.x n - px) * (Node.x n - px) + (Node.y n - py) * (Node.y n - py))%R.

(** A node lies within the viewport bounds: no boundary test fires. *)
Definition inBounds (width height : R) (n : Node.t) : Prop :=
  (Node.radius n + 10 <= Node.x n <= width - (Node.radius n + 10) ∧
   Node.radius n + 10 <= Node.y n <= height - (Node.radius n + 10))%R.

(** What the simulation never writes: identity, position and size. *)
Definition place (n : Node.t) : string * R * R * R :=
  (Node.id n, Node.x n, Node.y n, Node.radius n).

(** The logical viewport size that [animate] computes. *)
Definition viewport (s : Sim.t) : option (R * R) :=
  match Sim.canvas s with
  | Some (cw, ch) =>
      Some (cw / jsOr (Sim.devicePixelRatio s) 1,
            ch / jsOr (Sim.devicePixelRatio s) 1)%R
  | None => None
  end.

(** [k] animation frames in a row. *)
Definition frames (k : nat) (s : Sim.t) : Sim.t := Nat.iter k Sim.animate s.

(** No other node of the array is within the repulsion cutoff of [n], the
    node at index [d]. *)
Definition clearOfOthers (ns : list Node.t) (d : nat) (n : Node.t) : Prop :=
  ∀ i a, i ≠ d → ns !! i = Some a →
    (300 <= Sim.dist (Node.x a - Node.x n) (Node.y a - Node.y n))%R.

(** ** States used by the examples below *)

Definition genreNode (x y vx vy : R) : Node.t :=
  Node.mk "g-Drama" genre "Drama" x y vx vy 7 "#ec4899" None.

Definition filmNode (x y vx vy : R) : Node.t :=
  Node.mk "f-1" film "A" x y vx vy 11.4 "#0ea5e9"
    (Some (Film.mk 1 "A" 8 ["Drama"] ["X"])).

Definition directorNode (x y vx vy : R) : Node.t :=
  Node.mk "d-X" director "X" x y vx vy 6 "#fbbf24" None.

(** A mounted 800 x 600 canvas at pixel ratio 1, nothing hovered. *)
Definition stage (ns : list Node.t) (ls : list Link.t) (drag : option nat) : Sim.t :=
  Sim.mk ns ls drag None (0, 0)%R (Some (800, 600)%R) 1.

(** A genre node at rest and, five units away, a dragged director node;
    both are well within the bounds. *)
Definition crowded : Sim.t :=
  stage [genreNode 100 100 0 0; directorNode 103 104 0 0] [] (Some 1).

(** A single dragged node that the pointer has taken to x = 5, left of the
    left bound (16). *)
Definition atTheEdge : Sim.t := stage [directorNode 5 300 0 0] [] (Some 0).

(** A film node and, 400 units to its right, its director node; the edge
    between them is stretched to four times its rest length and the
    director node is 100 units right of the viewport center. *)
Definition tethered (drag : option nat) : Sim.t :=
  stage [filmNode 100 300 0 0; directorNode 500 300 0 0]
        [Link.mk "f-1" "d-X"] drag.


(** ** The rest of the graph view and its neighbours *)

(** *** [handleDoubleClick]: the route passed to [navigate], if any *)
Definition handleDoubleClick (px py : R) (s : Sim.t) : option string :=
  match Sim.hitTest (Sim.nodes s) px py with
  | Some (_, node) =>
      match Node.type node, Node.data node with
      | film, Some f => Some ("/film/" +:+ pretty (Film.id f))
      | _, _ => None
      end
  | None => None
  end.

(** *** What the canvas and the animation loop deliver *)
Inductive Event :=
  | Frame
  | MouseDown (px py : R)
  | MouseMove (px py : R)
  | MouseUp
  | MouseLeave.

Definition handle (s : Sim.t) (e : Event) : Sim.t :=
  match e with
  | Frame => Sim.animate s
  | MouseDown px py => Sim.handleMouseDown px py s
  | MouseMove px py => Sim.handleMouseMove px py s
  | MouseUp | MouseLeave => Sim.handleMouseUp s
  end.

Definition run (es : list Event) (s : Sim.t) : Sim.t := foldl handle s es.

(** The refs right after the build effect of a fresh component: the built
    nodes and links, nothing dragged or hovered, the mouse at the origin. *)
Definition mount (g : Builder.t) (canvas : option (R * R)) (dpr : R) : Sim.t :=
  Sim.mk (Builder.nodes g) (Builder.links g) None None (0, 0)%R canvas dpr.

(** What neither the simulation nor the pointer ever writes. *)
Definition structure (n : Node.t)
    : string * NodeType * string * R * string * option Film.t :=
  (Node.id n, Node.type n, Node.label n, Node.radius n, Node.color n, Node.data n).

(** The sum of a list of reals. *)
Definition sumR (l : list R) : R := foldr Rplus 0%R l.

(** The centering impulse on the x and y velocity of the node at index [i]. *)
Definition centerPullX (width : R) (drag : option nat) (i : nat) (n : Node.t) : R :=
  if decide (drag = Some i) then 0%R
  else ((width / 2 - Node.x n) * Sim.centerForce)%R.

Definition centerPullY (height : R) (drag : option nat) (i : nat) (n : Node.t) : R :=
  if decide (drag = Some i) then 0%R
  else ((height / 2 - Node.y n) * Sim.centerForce)%R.

(** A link both of whose endpoint ids occur in the list of ids. *)
Definition attached (idList : list string) (l : Link.t) : Prop :=
  Link.source l ∈ idList ∧ Link.target l ∈ idList.

#[global] Instance attached_dec idList l : Decision (attached idList l).
Proof. unfold attached. apply _. Defined.

(** *** The builder's input and output, by the ids a film mentions *)

(** The node ids one film asks for, in the order of the [addNode] calls. *)
Definition mentions (f : Film.t) : list string :=
  filmId f :: ((λ g, "g-" +:+ g) <$> Film.genres f) ++
  match Film.directors f with
  | d :: _ => ["d-" +:+ d]
  | [] => []
  end.

(** Keep the first occurrence of every element. *)
Definition firstSeen (l : list string) : list string :=
  foldl (λ acc x, if decide (x ∈ acc) then acc else acc ++ [x]) [] l.

(** [setFilms(prev => reset ? res.films : [...prev, ...res.films])] of the
    dashboard's [fetchFilms], which feeds [GraphView]. *)
Definition mergeFilms (reset : bool) (prev res : list Film.t) : list Film.t :=
  if reset then res else prev ++ res.

(** *** [FilmCard]: the image shown on a card *)
Definition imageUrl (image : option string) (id : Z) : string :=
  match image with
  | Some img =>
      if bool_decide (img ≠ "") && String.prefix "http" img then img
      else "https://picsum.photos/seed/" +:+ pretty id +:+ "/300/450"
  | None => "https://picsum.photos/seed/" +:+ pretty id +:+ "/300/450"
  end.

(** *** The log listeners of [src/services/api.ts]

    A listener is a function compared by reference; it is modelled by a
    number that stands for that reference. *)
Module Log.

Definition subscribe (listener : nat) (listeners : list nat) : list nat :=
  listeners ++ [listener].

(** [listeners.indexOf(listener)], with [None] for -1. *)
Definition indexOf (listener : nat) (listeners : list nat) : option nat :=
  fst <$> list_find (λ l, l = listener) listeners.

(** The function that [subscribeToLogs] returns. *)
Definition unsubscribe (listener : nat) (listeners : list nat) : list nat :=
  match indexOf listener listeners with
  | Some idx => delete idx listeners
  | None => listeners
  end.

(** The calls [notifyListeners] makes, in order. *)
Definition notifyListeners {A} (listeners : list nat) (log : A) : list (nat * A) :=
  (λ l, (l, log)) <$> listeners.

(** [setLogs(prev => [...prev, log].slice(-50))] of the debug console. *)
Definition keepLast {A} (prev : list A) (log : A) : list A :=
  let all := prev ++ [log] in
  drop (length all - 50) all.

End Log.

(** A node says what its film, genre or director says: a film node carries
    the first film of the list that has its id, and takes its id, label
    and radius from it; a genre or director node carries no film and is
    named by its label. *)
Definition faithfulTo (films : list Film.t) (n : Node.t) : Prop :=
  Node.color n = Builder.nodeColor (Node.type n) ∧
  match Node.type n with
  | film =>
      ∃ i f, list_find (λ f', Film.id f' = Film.id f) films = Some (i, f) ∧
             Node.data n = Some f ∧ Node.id n = filmId f ∧
             Node.label n = Film.title f ∧
             Node.radius n = (5 + jsOr (Film.rating f) 0 * 0.8)%R
  | genre =>
      Node.data n = None ∧ Node.id n = "g-" +:+ Node.label n ∧
      Node.radius n = 7%R
  | director =>
      Node.data n = None ∧ Node.id n = "d-" +:+ Node.label n ∧
      Node.radius n = 6%R
  end.

(** Where a node starts: at rest, in the 800 x 600 box or, when the
    container is mounted, within 100 of its center on each axis. *)
Definition startsAt (container : option (R * R)) (n : Node.t) : Prop :=
  Node.vx n = 0%R ∧ Node.vy n = 0%R ∧
  match container with
  | Some (width, height) =>
      (width / 2 - 100 <= Node.x n < width / 2 + 100 ∧
       height / 2 - 100 <= Node.y n < height / 2 + 100)%R
  | None => (0 <= Node.x n < 800 ∧ 0 <= Node.y n < 600)%R
  end.


(** ** Proof automation *)

(** Reduce field reads of assigned nodes, and settle one comparison between
    constants. *)
Ltac node_simpl :=
  unfold Node.set_x, Node.set_y, Node.set_vx, Node.set_vy;
  cbn [Node.id Node.type Node.label Node.x Node.y Node.vx Node.vy Node.radius
       Node.color Node.data].

Ltac decide_by_lra :=
  match goal with
  | |- context [decide ?P] =>
      first [ rewrite (decide_True (P := P)) by lra
            | rewrite (decide_False (P := P)) by lra ]
  end.

(** Unfold one layer of a per-node pass on a literal node and settle its
    test. *)
Ltac eval_layer f := unfold f; node_simpl; try decide_by_lra; node_simpl.


(** ** The graph builder *)

Section BuilderFacts.
Variable random : nat → R.
Import Builder.

Lemma kindPrefix_inj (t1 t2 : NodeType) (s : string) :
  String.prefix (kindPrefix t1) s = true →
  String.prefix (kindPrefix t2) s = true → t1 = t2.
Proof.
  intros H1 H2.
  apply String.prefix_correct in H1. apply String.prefix_correct in H2.
  destruct t1, t2; simpl in H1, H2; congruence.
Qed.

Lemma kindPrefix_append (type : NodeType) (s : string) :
  String.prefix (kindPrefix type) (kindPrefix type +:+ s) = true.
Proof. destruct type, s; reflexivity. Qed.

Lemma ids_addNode id type label data st :
  ids (addNode random id type label data st) =
  if decide (id ∈ nodeMap st) then ids st else ids st ++ [id].
Proof.
  unfold addNode, ids. case_decide; [done|].
  simpl. by rewrite fmap_app.
Qed.

Lemma links_addNode id type label data st :
  links (addNode random id type label data st) = links st.
Proof. unfold addNode. by case_decide. Qed.

Lemma addNode_mono id type label data st id' :
  id' ∈ ids st → id' ∈ ids (addNode random id type label data st).
Proof. rewrite ids_addNode. case_decide; set_solver. Qed.

Lemma nodeMap_addNode id type label data st :
  nodeMap (addNode random id type label data st) =
  if decide (id ∈ nodeMap st) then nodeMap st else {[id]} ∪ nodeMap st.
Proof. unfold addNode. by case_decide. Qed.

Lemma nodes_addNode id type label data st n :
  n ∈ nodes (addNode random id type label data st) →
  n ∈ nodes st ∨ (Node.id n = id ∧ Node.type n = type).
Proof.
  unfold addNode. case_decide; [by left|]. simpl.
  intros [?| ->%list_elem_of_singleton]%elem_of_app; [by left|by right].
Qed.

Lemma addNode_wf id type label data st :
  String.prefix (kindPrefix type) id = true →
  wf st → wf (addNode random id type label data st).
Proof.
  intros Hp [Hm Hn Hl Hk]. constructor.
  - intros i. rewrite nodeMap_addNode, ids_addNode.
    case_decide; [done|]. set_solver.
  - rewrite ids_addNode. case_decide as Hin; [done|].
    apply NoDup_app. split_and!; [done| |apply NoDup_singleton].
    intros i Hi ->%list_elem_of_singleton. by apply Hin, Hm.
  - intros l. rewrite links_addNode, ids_addNode. intros [??]%Hl.
    case_decide; set_solver.
  - intros n [?|[<- <-]]%nodes_addNode; [by apply Hk|done].
Qed.

Lemma addNode_in id type label data st :
  wf st → id ∈ ids (addNode random id type label data st).
Proof.
  intros [Hm _ _ _]. rewrite ids_addNode.
  case_decide as Hin; [by apply Hm|set_solver].
Qed.

Lemma pushLink_wf s t st :
  wf st → s ∈ ids st → t ∈ ids st → wf (pushLink s t st).
Proof.
  intros [Hm Hn Hl Hk] Hs Ht. constructor; try done.
  intros l [Hin| ->%list_elem_of_singleton]%elem_of_app; [by apply Hl|done].
Qed.

Lemma addGenre_wf fid st g :
  wf st → fid ∈ ids st →
  wf (addGenre random fid st g) ∧ fid ∈ ids (addGenre random fid st g).
Proof.
  intros Hwf Hf. unfold addGenre. split.
  - apply pushLink_wf.
    + by apply addNode_wf; [apply kindPrefix_append|].
    + by apply addNode_mono.
    + by apply addNode_in.
  - by apply (addNode_mono _ genre g None st fid).
Qed.

Lemma addGenres_wf fid gs st :
  wf st → fid ∈ ids st →
  wf (foldl (addGenre random fid) st gs) ∧
  fid ∈ ids (foldl (addGenre random fid) st gs).
Proof.
  revert st. induction gs as [|g gs IH]; intros st Hwf Hf; [done|].
  simpl. destruct (addGenre_wf fid st g Hwf Hf). by apply IH.
Qed.

Lemma addFilm_wf st f : wf st → wf (addFilm random st f).
Proof.
  intros Hwf. unfold addFilm.
  set (fid := "f-" +:+ pretty (Film.id f)).
  set (st1 := addNode random fid film (Film.title f) (Some f) st).
  assert (wf st1) as Hwf1 by (by apply addNode_wf; [apply kindPrefix_append|]).
  assert (fid ∈ ids st1) as Hf1 by by apply addNode_in.
  destruct (addGenres_wf fid (Film.genres f) st1 Hwf1 Hf1) as [Hwf2 Hf2].
  destruct (Film.directors f) as [|d ds]; [done|].
  apply pushLink_wf.
  - by apply addNode_wf; [apply kindPrefix_append|].
  - by apply addNode_mono.
  - by apply addNode_in.
Qed.

Lemma wf_empty : wf empty.
Proof. constructor; set_solver by apply NoDup_nil_2. Qed.

Lemma addFilms_wf films st : wf st → wf (foldl (addFilm random) st films).
Proof.
  revert st. induction films as [|f fs IH]; intros st Hwf; [done|].
  simpl. by apply IH, addFilm_wf.
Qed.


(** The center layout moves nodes and changes nothing else. *)
Lemma fmap_imap_stable {A B} (p : A → B) (f : nat → A → A) (l : list A) :
  (∀ i a, p (f i a) = p a) → p <$> imap f l = p <$> l.
Proof.
  intros Hp. revert f Hp. induction l as [|a l IH]; intros f Hp; [done|].
  simpl. rewrite Hp. f_equal. apply IH. intros i b. apply Hp.
Qed.

Lemma links_centerLayout c st : links (centerLayout random c st) = links st.
Proof. by destruct c as [[??]|]. Qed.

Lemma ids_centerLayout c st : ids (centerLayout random c st) = ids st.
Proof. destruct c as [[??]|]; [|done]. by apply fmap_imap_stable. Qed.

Lemma types_centerLayout c st :
  Node.type <$> nodes (centerLayout random c st) = Node.type <$> nodes st.
Proof. destruct c as [[??]|]; [|done]. by apply fmap_imap_stable. Qed.

Lemma radii_centerLayout c st :
  Node.radius <$> nodes (centerLayout random c st) = Node.radius <$> nodes st.
Proof. destruct c as [[??]|]; [|done]. by apply fmap_imap_stable. Qed.

Lemma nodes_centerLayout c st n :
  n ∈ nodes (centerLayout random c st) →
  ∃ m, m ∈ nodes st ∧ Node.id n = Node.id m ∧ Node.type n = Node.type m.
Proof.
  destruct c as [[w h]|]; [|by exists n]. simpl.
  intros (i & m & -> & Hm)%elem_of_lookup_imap.
  exists m. split; [by eapply list_elem_of_lookup_2|done].
Qed.

Lemma centerLayout_wf c st : wf st → wf (centerLayout random c st).
Proof.
  intros [Hm Hn Hl Hk]. constructor.
  - intros i. rewrite ids_centerLayout. by destruct c as [[??]|].
  - by rewrite ids_centerLayout.
  - intros l. rewrite links_centerLayout, ids_centerLayout. apply Hl.
  - intros n (m & Hin & -> & ->)%nodes_centerLayout. by apply Hk.
Qed.

Lemma buildGraph_wf films c : wf (buildGraph random films c).
Proof. apply centerLayout_wf, addFilms_wf, wf_empty. Qed.

(** A node found under an id with a kind prefix has that kind. *)
Lemma wf_lookup st i type :
  wf st → i ∈ ids st → String.prefix (kindPrefix type) i = true →
  ∃ n, n ∈ nodes st ∧ Node.id n = i ∧ Node.type n = type.
Proof.
  intros Hwf (n & -> & Hn)%list_elem_of_fmap Hp.
  exists n. split_and!; [done..|].
  eapply kindPrefix_inj; [|done]. by apply Hwf.
Qed.

(** The edges the loop appends. *)
Lemma links_addGenres fid gs st :
  links (foldl (addGenre random fid) st gs) =
  links st ++ ((λ g, Link.mk fid ("g-" +:+ g)) <$> gs).
Proof.
  revert st. induction gs as [|g gs IH]; intros st; simpl.
  - by rewrite app_nil_r.
  - rewrite IH. unfold addGenre, pushLink. simpl.
    by rewrite links_addNode, <-app_assoc.
Qed.

Lemma links_addFilm st f :
  links (addFilm random st f) = links st ++ genreLinks f ++ directorLinks f.
Proof.
  unfold addFilm, genreLinks, directorLinks, filmId.
  destruct (Film.directors f) as [|d ds]; simpl.
  - by rewrite links_addGenres, links_addNode, app_nil_r.
  - by rewrite links_addNode, links_addGenres, links_addNode, <-app_assoc.
Qed.

Lemma links_addFilms films st :
  links (foldl (addFilm random) st films) =
  links st ++ (films ≫= λ f, genreLinks f ++ directorLinks f).
Proof.
  revert st. induction films as [|f fs IH]; intros st; simpl.
  - by rewrite app_nil_r.
  - by rewrite IH, links_addFilm, <-app_assoc.
Qed.

Lemma filter_genreLinks f : filter isDirectorEdge (genreLinks f) = [].
Proof.
  unfold genreLinks. induction (Film.genres f) as [|g gs IH]; [done|].
  rewrite fmap_cons, filter_cons_False; [done|].
  unfold isDirectorEdge. simpl. by destruct g.
Qed.

Lemma filter_directorLinks f :
  filter isDirectorEdge (directorLinks f) = directorLinks f.
Proof.
  unfold directorLinks. destruct (Film.directors f) as [|d ds]; [done|].
  rewrite filter_cons_True; [done|].
  unfold isDirectorEdge. simpl. by destruct d.
Qed.

Lemma filter_filmLinks f :
  filter isDirectorEdge (genreLinks f ++ directorLinks f) = directorLinks f.
Proof. by rewrite filter_app, filter_genreLinks, filter_directorLinks. Qed.

Lemma filter_films_links films :
  filter isDirectorEdge (films ≫= λ f, genreLinks f ++ directorLinks f) =
  films ≫= directorLinks.
Proof.
  induction films as [|f fs IH]; [done|].
  rewrite !bind_cons, filter_app, IH. by rewrite filter_filmLinks.
Qed.


(** C3. Building the graph from the two films of the scenario gives the
    five nodes f-1, g-Drama, d-X, f-2, d-Y (in insertion order) and four
    edges; f-1 has radius 11.4 and f-2 has radius 9; the shared genre
    Drama yields one node, which two edges reference. *)
Theorem C3_end_to_end_scenario (container : option (R * R)) :
  let g := buildGraph random scenario container in
  ids g = ["f-1"; "g-Drama"; "d-X"; "f-2"; "d-Y"] ∧
  Node.type <$> nodes g = [film; genre; director; film; director] ∧
  Node.radius <$> nodes g = [11.4; 7; 6; 9; 6]%R ∧
  links g = [Link.mk "f-1" "g-Drama"; Link.mk "f-1" "d-X";
             Link.mk "f-2" "g-Drama"; Link.mk "f-2" "d-Y"] ∧
  length (nodes g) = 5 ∧ length (links g) = 4 ∧
  length (filter (λ i, i = "g-Drama") (ids g)) = 1 ∧
  length (filter (λ l, Link.target l = "g-Drama") (links g)) = 2.
Proof.
  intros g.
  assert (ids g = ["f-1"; "g-Drama"; "d-X"; "f-2"; "d-Y"]) as Hids.
  { unfold g, buildGraph. rewrite ids_centerLayout. by vm_compute. }
  assert (links g = [Link.mk "f-1" "g-Drama"; Link.mk "f-1" "d-X";
                     Link.mk "f-2" "g-Drama"; Link.mk "f-2" "d-Y"]) as Hlinks.
  { unfold g, buildGraph. rewrite links_centerLayout. by vm_compute. }
  split_and!; try done.
  - unfold g, buildGraph. rewrite types_centerLayout. by vm_compute.
  - unfold g, buildGraph. rewrite radii_centerLayout. vm_compute.
    repeat destruct (Req_dec_T _ _); try lra.
    repeat (refine (f_equal2 cons _ _); [lra|]). done.
  - rewrite <-(length_fmap Node.id). fold (ids g). by rewrite Hids.
  - by rewrite Hlinks.
  - by rewrite Hids.
  - by rewrite Hlinks.
Qed.

(** C8. Processing one film appends its genre edges and then exactly one
    Director edge, from the film to the first director of its list, or no
    Director edge when the list is empty; so the Director edges of a built
    graph are one per film that has a director, and each joins a film node
    to a director node of the graph. *)
Theorem C8_director_limiting (f : Film.t) :
  (∀ st, ∃ new,
      links (addFilm random st f) = links st ++ new ∧
      filter isDirectorEdge new =
        match Film.directors f with
        | d :: _ => [Link.mk ("f-" +:+ pretty (Film.id f)) ("d-" +:+ d)]
        | [] => []
        end) ∧
  (∀ films container,
      let g := buildGraph random films container in
      filter isDirectorEdge (links g) = films ≫= directorLinks ∧
      ∀ l, l ∈ filter isDirectorEdge (links g) →
        (∃ n, n ∈ nodes g ∧ Node.id n = Link.source l) ∧
        (∃ n, n ∈ nodes g ∧ Node.id n = Link.target l ∧ Node.type n = director)).
Proof.
  split.
  - intros st. exists (genreLinks f ++ directorLinks f).
    split; [apply links_addFilm|]. by rewrite filter_filmLinks.
  - intros films container g.
    assert (filter isDirectorEdge (links g) = films ≫= directorLinks) as Hd.
    { unfold g, buildGraph. rewrite links_centerLayout, links_addFilms.
      apply filter_films_links. }
    split; [done|]. intros l [Hdir Hl]%list_elem_of_filter.
    pose proof (buildGraph_wf films container) as Hwf. fold g in Hwf.
    destruct (wf_links _ Hwf l Hl) as [Hs Ht]. split.
    + apply list_elem_of_fmap in Hs as (n & -> & Hn). by exists n.
    + destruct (wf_lookup g (Link.target l) director Hwf Ht Hdir)
        as (n & ? & ? & ?). by exists n.
Qed.

(** C9. The built graph is well formed: both endpoints of every edge are ids
    of nodes of the graph, every node id carries the prefix of its kind
    (f-, g-, d-), and so nodes of distinct kinds never share an id. *)
Theorem C9_graph_well_formed (films : list Film.t) (container : option (R * R)) :
  let g := buildGraph random films container in
  (∀ l, l ∈ links g →
     (∃ n, n ∈ nodes g ∧ Node.id n = Link.source l) ∧
     (∃ n, n ∈ nodes g ∧ Node.id n = Link.target l)) ∧
  (∀ n, n ∈ nodes g →
     String.prefix (kindPrefix (Node.type n)) (Node.id n) = true) ∧
  (∀ n m, n ∈ nodes g → m ∈ nodes g →
     Node.type n ≠ Node.type m → Node.id n ≠ Node.id m) ∧
  NoDup (Node.id <$> nodes g).
Proof.
  intros g. destruct (buildGraph_wf films container) as [Hm Hn Hl Hk].
  fold g in Hm, Hn, Hl, Hk. split_and!; [|done| |done].
  - intros l [Hs Ht]%Hl.
    apply list_elem_of_fmap in Hs as (n & -> & Hn').
    apply list_elem_of_fmap in Ht as (m & Ht & Hm').
    split; [by exists n|by exists m].
  - intros n m Hn' Hm' Hty Hid. apply Hty.
    eapply kindPrefix_inj; [by apply Hk|]. rewrite Hid. by apply Hk.
Qed.

End BuilderFacts.

(** ** The simulation: facts about one node or one pair *)

Section NodeFacts.
Import Sim.
Local Open Scope R_scope.

Lemma jsOr_zero b : jsOr 0 b = b.
Proof. unfold jsOr. by destruct (Req_dec_T 0 0). Qed.

Lemma jsOr_nonzero a b : a ≠ 0 → jsOr a b = a.
Proof. intros Ha. unfold jsOr. by destruct (Req_dec_T a 0). Qed.

Lemma sumsq_nonneg (a b : R) : 0 <= a * a + b * b.
Proof. nra. Qed.

Lemma dist_pos dx dy : 0 < dist dx dy.
Proof.
  unfold dist, jsOr. destruct (Req_dec_T _ _) as [|Hne]; [lra|].
  pose proof (sqrt_pos (dx * dx + dy * dy)). lra.
Qed.

Lemma dist_of_sqrt dx dy d :
  0 < d → sqrt (dx * dx + dy * dy) = d → dist dx dy = d.
Proof. intros Hd Hs. unfold dist. rewrite Hs. apply jsOr_nonzero. lra. Qed.

Lemma sqrt_sumsq (dx dy d : R) :
  0 <= d → dx * dx + dy * dy = d * d → sqrt (dx * dx + dy * dy) = d.
Proof. intros Hd ->. by apply sqrt_square. Qed.

(** C2, as the code has it.  The distance used as a denominator is the
    Euclidean distance, except that exactly zero is replaced by one; it is
    therefore positive and no division by zero occurs.  It agrees with
    max(distance, 1), and the force stays within the repulsion coefficient,
    when the distance is zero or at least one; strictly between zero and one
    the distance itself is used and the force exceeds the coefficient. *)
Theorem C2_distance_guard (dx dy : R) :
  let d := sqrt (dx * dx + dy * dy) in
  let used := dist dx dy in
  used = (if Req_dec_T d 0 then 1 else d) ∧
  0 < used ∧ used * used ≠ 0 ∧
  (d = 0 ∨ 1 <= d → used = Rmax d 1 ∧ repulsion / (used * used) <= repulsion) ∧
  (0 < d < 1 → used = d ∧ used < Rmax d 1 ∧ repulsion < repulsion / (used * used)).
Proof.
  intros d used. pose proof (dist_pos dx dy) as Hpos. fold used in Hpos.
  assert (used = if Req_dec_T d 0 then 1 else d) as Hused by done.
  split_and!; [done|done|nra| |].
  - intros Hd. destruct (Req_dec_T d 0) as [Hz|Hnz].
    + rewrite Hused, Hz. split; [by rewrite Rmax_right by lra|].
      unfold repulsion. lra.
    + assert (1 <= d) as H1 by (by destruct Hd). rewrite Hused.
      split; [by rewrite Rmax_left|].
      assert (/ (d * d) <= / 1) as Hinv by (apply Rinv_le_contravar; nra).
      rewrite Rinv_1 in Hinv. unfold repulsion, Rdiv. nra.
  - intros [Hd0 Hd1]. destruct (Req_dec_T d 0) as [Hz|Hnz]; [lra|].
    rewrite Hused. rewrite Rmax_right by lra. split_and!; [done|done|].
    assert (/ 1 < / (d * d)) as Hinv by (apply Rinv_lt_contravar; nra).
    rewrite Rinv_1 in Hinv. unfold repulsion, Rdiv. nra.
Qed.

(** *** Hit-testing *)

Lemma hit_sqDistance px py n :
  hit px py n ↔ sqDistance px py n < (Node.radius n + 10) ^ 2.
Proof. done. Qed.

(** C4. The hit-test returns the node at index [i] exactly when that node
    is the first of the node array whose squared distance to the pointer is
    strictly below (radius + 10)^2, and returns nothing exactly when no
    node satisfies this; a pointer at distance radius + 10 - e hits and one
    at radius + 10 + e does not. *)
Theorem C4_hit_test (ns : list Node.t) (px py : R) :
  (∀ i n, hitTest ns px py = Some (i, n) ↔
     ns !! i = Some n ∧
     sqDistance px py n < (Node.radius n + 10) ^ 2 ∧
     ∀ j m, ns !! j = Some m → (j < i)%nat →
       ¬ sqDistance px py m < (Node.radius m + 10) ^ 2) ∧
  (hitTest ns px py = None ↔
     ∀ n, n ∈ ns → ¬ sqDistance px py n < (Node.radius n + 10) ^ 2) ∧
  (∀ n e, n ∈ ns → 0 < e →
     sqrt (sqDistance px py n) = Node.radius n + 10 - e →
     ∃ i m, hitTest ns px py = Some (i, m)) ∧
  (∀ n e, 0 <= Node.radius n + 10 → 0 < e →
     sqrt (sqDistance px py n) = Node.radius n + 10 + e →
     hitTest [n] px py = None).
Proof.
  split_and!.
  - intros i n. unfold hitTest. rewrite list_find_Some. by setoid_rewrite hit_sqDistance.
  - unfold hitTest. rewrite list_find_None, Forall_forall.
    by setoid_rewrite hit_sqDistance.
  - intros n e Hn He Hd.
    assert (hit px py n) as Hhit.
    { apply hit_sqDistance.
      pose proof (sqrt_pos (sqDistance px py n)) as Hs.
      assert (0 <= sqDistance px py n) as H0 by apply sumsq_nonneg.
      rewrite <-(sqrt_sqrt _ H0), Hd. rewrite Hd in Hs. nra. }
    destruct (list_find (hit px py) ns) as [[i m]|] eqn:Hf.
    + exists i, m. done.
    + apply list_find_None in Hf. rewrite Forall_forall in Hf.
      by destruct (Hf n Hn).
  - intros n e Hr He Hd. unfold hitTest. apply list_find_None.
    apply Forall_singleton. rewrite hit_sqDistance.
    assert (0 <= sqDistance px py n) as H0 by apply sumsq_nonneg.
    rewrite <-(sqrt_sqrt _ H0), Hd. nra.
Qed.

(** *** Boundaries *)

(** C5, as the code has it.  For a node that is not dragged, whose
    integrated position exceeds the right bound, the boundary pass puts x
    at exactly width - radius - 10, and its handling of x leaves y and the
    y-velocity alone.  The x-velocity is negated provided the node is not
    also left of the left bound; if it is (a viewport narrower than the
    padded node), the left test has fired first and has negated it too. *)
Theorem C5_right_bounce (width height : R) (drag : option nat)
    (hovered : option string) (i : nat) (n : Node.t) :
  let m := integrate hovered n in
  drag ≠ Some i →
  Node.x m > width - Node.radius m - 10 →
  let xPass := bounceRight width (bounceLeft m) in
  let n' := updateNode width height drag hovered i n in
  n' = bounceBottom height (bounceTop xPass) ∧
  Node.x xPass = width - Node.radius m - 10 ∧
  Node.x n' = width - Node.radius m - 10 ∧
  Node.y xPass = Node.y m ∧ Node.vy xPass = Node.vy m ∧
  (Node.radius m + 10 <= Node.x m →
     Node.vx xPass = - Node.vx m ∧ Node.vx n' = - Node.vx m) ∧
  (Node.x m < Node.radius m + 10 →
     Node.vx xPass = Node.vx m ∧ Node.vx n' = Node.vx m).
Proof.
  intros m Hdrag Hx xPass n'.
  assert (n' = bounceBottom height (bounceTop xPass)) as Hn'.
  { unfold n', updateNode. by rewrite decide_True. }
  assert (∀ q, Node.x (bounceBottom height (bounceTop q)) = Node.x q ∧
               Node.vx (bounceBottom height (bounceTop q)) = Node.vx q) as Hyx.
  { intros q. unfold bounceBottom, bounceTop. by repeat case_decide. }
  destruct (Hyx xPass) as [Hyx1 Hyx2]. rewrite Hn', Hyx1, Hyx2.
  unfold xPass, bounceRight, bounceLeft.
  clearbody m. clear Hn' Hyx Hyx1 Hyx2 xPass n'.
  destruct (decide (Node.x m < Node.radius m + 10)) as [Hl|Hl];
    case_decide as Hr; simpl in *; split_and!; intros; try done; lra.
Qed.

(** *** Terminal velocity *)

Lemma speed_le (n : Node.t) (c : R) :
  0 <= c → Node.vx n * Node.vx n + Node.vy n * Node.vy n <= c * c → speed n <= c.
Proof.
  intros Hc Hs. unfold speed. rewrite <-(sqrt_square c Hc).
  by apply sqrt_le_1_alt.
Qed.

Lemma capVelocity_bound (n : Node.t) :
  let m := capVelocity n in
  Node.vx m * Node.vx m + Node.vy m * Node.vy m <= maxVelocity * maxVelocity.
Proof.
  unfold capVelocity.
  set (s := Node.vx n * Node.vx n + Node.vy n * Node.vy n).
  assert (0 <= s) as Hs by apply sumsq_nonneg.
  pose proof (sqrt_sqrt s Hs) as Hv. pose proof (sqrt_pos s) as Hv0.
  case_decide as Hcap; simpl; fold s.
  - unfold maxVelocity in *.
    assert (sqrt s ≠ 0) as Hne by lra.
    replace (Node.vx n / sqrt s * 15 * (Node.vx n / sqrt s * 15) +
             Node.vy n / sqrt s * 15 * (Node.vy n / sqrt s * 15))
      with (s / (sqrt s * sqrt s) * (15 * 15)) by (unfold s; by field).
    rewrite Hv. replace (s / s) with 1 by (field; nra). lra.
  - unfold maxVelocity in *. nra.
Qed.

Lemma integrate_bound (hovered : option string) (n : Node.t) :
  let m := integrate hovered n in
  Node.vx m * Node.vx m + Node.vy m * Node.vy m <= maxVelocity * maxVelocity.
Proof.
  pose proof (capVelocity_bound n) as Hc. simpl in *.
  unfold integrate, move, hoverDamp, scaleVelocity, damping, maxVelocity in *.
  set (c := capVelocity n) in *.
  case_decide; simpl; nra.
Qed.

Lemma bounce_speed (width height : R) (n : Node.t) :
  let m := bounce width height n in
  Node.vx m * Node.vx m + Node.vy m * Node.vy m =
  Node.vx n * Node.vx n + Node.vy n * Node.vy n.
Proof.
  assert (∀ q, Node.vx (bounceLeft q) * Node.vx (bounceLeft q) +
               Node.vy (bounceLeft q) * Node.vy (bounceLeft q) =
               Node.vx q * Node.vx q + Node.vy q * Node.vy q) as HL.
  { intros q. unfold bounceLeft. case_decide; node_simpl; lra. }
  assert (∀ q, Node.vx (bounceRight width q) * Node.vx (bounceRight width q) +
               Node.vy (bounceRight width q) * Node.vy (bounceRight width q) =
               Node.vx q * Node.vx q + Node.vy q * Node.vy q) as HR.
  { intros q. unfold bounceRight. case_decide; node_simpl; lra. }
  assert (∀ q, Node.vx (bounceTop q) * Node.vx (bounceTop q) +
               Node.vy (bounceTop q) * Node.vy (bounceTop q) =
               Node.vx q * Node.vx q + Node.vy q * Node.vy q) as HT.
  { intros q. unfold bounceTop. case_decide; node_simpl; lra. }
  assert (∀ q, Node.vx (bounceBottom height q) * Node.vx (bounceBottom height q) +
               Node.vy (bounceBottom height q) * Node.vy (bounceBottom height q) =
               Node.vx q * Node.vx q + Node.vy q * Node.vy q) as HB.
  { intros q. unfold bounceBottom. case_decide; node_simpl; lra. }
  unfold bounce. simpl. by rewrite HB, HT, HR, HL.
Qed.

(** C10. After the update-positions pass of a step, every node that is not
    the dragged node has velocity magnitude at most the terminal velocity. *)
Theorem C10_terminal_velocity (width height : R) (drag : option nat)
    (hovered : option string) (ns : list Node.t) (i : nat) (n' : Node.t) :
  drag ≠ Some i →
  updatePositions width height drag hovered ns !! i = Some n' →
  speed n' <= maxVelocity.
Proof.
  intros Hdrag Hn'. unfold updatePositions in Hn'.
  apply list_lookup_imap_Some in Hn' as (n & Hn & ->).
  unfold updateNode. rewrite decide_True by done.
  apply speed_le; [unfold maxVelocity; lra|].
  pose proof (bounce_speed width height (integrate hovered n)) as Hb.
  simpl in Hb. rewrite Hb. apply integrate_bound.
Qed.

End NodeFacts.

(** ** The simulation: facts about the node array *)

Section ArrayFacts.
Import Sim.
Local Open Scope R_scope.

Lemma repel_eq (i j : nat) (ns : list Node.t) (a b : Node.t) :
  ns !! i = Some a → ns !! j = Some b →
  let dx := Node.x a - Node.x b in
  let dy := Node.y a - Node.y b in
  let d := dist dx dy in
  let force := repulsion / (d * d) in
  repel i ns j =
    if decide (d < 300)
    then alter (pull (dx / d * force) (dy / d * force)) j
           (alter (push (dx / d * force) (dy / d * force)) i ns)
    else ns.
Proof. intros Ha Hb. unfold repel. by rewrite Ha, Hb. Qed.

Lemma dist_below_cutoff (dx dy : R) :
  sqrt (dx * dx + dy * dy) < 300 → dist dx dy < 300.
Proof.
  intros Hd. unfold dist, jsOr. destruct (Req_dec_T _ _); lra.
Qed.

(** C6. For a state of exactly two nodes, neither dragged, closer than the
    cutoff, the repulsion of one step adds the impulse (fx, fy) to the
    velocity of the first and (-fx, -fy) to that of the second, on top of
    what centering alone contributes. *)
Theorem C6_repulsion_symmetry (width height : R) (drag : option nat)
    (a b : Node.t) :
  drag ≠ Some 0%nat → drag ≠ Some 1%nat →
  sqrt ((Node.x a - Node.x b) * (Node.x a - Node.x b) +
        (Node.y a - Node.y b) * (Node.y a - Node.y b)) < 300 →
  let dx := Node.x a - Node.x b in
  let dy := Node.y a - Node.y b in
  let d := dist dx dy in
  let fx := dx / d * (repulsion / (d * d)) in
  let fy := dy / d * (repulsion / (d * d)) in
  repel 0 [a; b] 1 = [push fx fy a; pull fx fy b] ∧
  ∃ a' b',
    forces width height drag [a; b] = [a'; b'] ∧
    Node.vx a' - Node.vx (centerGravity width height a) = fx ∧
    Node.vy a' - Node.vy (centerGravity width height a) = fy ∧
    Node.vx b' - Node.vx (centerGravity width height b) = - fx ∧
    Node.vy b' - Node.vy (centerGravity width height b) = - fy.
Proof.
  intros H0 H1 Hnear dx dy d fx fy.
  assert (d < 300) as Hd by by apply dist_below_cutoff.
  split.
  - rewrite (repel_eq 0 1 [a; b] a b) by done. fold dx dy d.
    by rewrite decide_True.
  - exists (push fx fy (centerGravity width height a)),
      (centerGravity width height (pull fx fy b)).
    split.
    + unfold forces, forcesAt. simpl.
      rewrite !decide_False by done. simpl.
      rewrite (repel_eq 0 1 _ (centerGravity width height a) b) by done.
      simpl. fold dx dy d. rewrite decide_True by done. done.
    + unfold centerGravity, push, pull. simpl. split_and!; lra.
Qed.


(** *** Springs *)

Lemma push_zero (n : Node.t) : push 0 0 n = n.
Proof. destruct n. unfold push. simpl. by rewrite !Rplus_0_r. Qed.

Lemma pull_zero (n : Node.t) : pull 0 0 n = n.
Proof. destruct n. unfold pull. simpl. by rewrite !Rminus_0_r. Qed.

(** C7. When the two endpoints of an edge are exactly the rest length
    apart, the spring force vanishes and the spring pass of that edge
    leaves every velocity as it was. *)
Theorem C7_spring_equilibrium (drag : option nat) (ns : list Node.t)
    (link : Link.t) (si ti : nat) (source target : Node.t) :
  findById (Link.source link) ns = Some (si, source) →
  findById (Link.target link) ns = Some (ti, target) →
  sqrt ((Node.x target - Node.x source) * (Node.x target - Node.x source) +
        (Node.y target - Node.y source) * (Node.y target - Node.y source))
    = springLength →
  let d := dist (Node.x target - Node.x source) (Node.y target - Node.y source) in
  (d - springLength) * k = 0 ∧
  spring drag ns link = ns ∧
  springs drag ns [link] = ns.
Proof.
  intros Hs Ht Hrest d.
  assert (d = springLength) as Hd.
  { apply dist_of_sqrt; [unfold springLength; lra|done]. }
  assert (spring drag ns link = ns) as Hspring.
  { unfold spring. rewrite Hs, Ht. fold d. rewrite Hd.
    replace ((springLength - springLength) * k) with 0 by lra.
    rewrite !Rmult_0_r.
    rewrite !(list_alter_id (push 0 0)) by apply push_zero.
    rewrite !(list_alter_id (pull 0 0)) by apply pull_zero.
    by repeat case_decide. }
  split_and!; [rewrite Hd; lra|done|]. unfold springs. simpl. done.
Qed.

(** *** What a step leaves alone *)

Lemma foldl_invariant {A B} (P : A → Prop) (f : A → B → A) (l : list B) (a : A) :
  P a → (∀ a b, b ∈ l → P a → P (f a b)) → P (foldl f a l).
Proof.
  revert a. induction l as [|b l IH]; intros a Ha Hf; [done|].
  simpl. apply IH.
  - apply Hf; [left|done].
  - intros a' b' Hb'. apply Hf. by right.
Qed.

Lemma places_alter (f : Node.t → Node.t) (i : nat) (ns : list Node.t) :
  (∀ n, place (f n) = place n) → place <$> alter f i ns = place <$> ns.
Proof.
  intros Hf. rewrite (list_fmap_alter place f (λ p, p)).
  - by apply list_alter_id.
  - apply Forall_forall. intros n _. apply Hf.
Qed.

Lemma places_lookup (ns ns' : list Node.t) (i : nat) (a' : Node.t) :
  place <$> ns' = place <$> ns → ns' !! i = Some a' →
  ∃ a, ns !! i = Some a ∧ place a' = place a.
Proof.
  intros Hp Ha'.
  assert ((place <$> ns) !! i = Some (place a')) as Hl.
  { rewrite <-Hp, list_lookup_fmap, Ha'. done. }
  apply list_lookup_fmap_Some in Hl as (a & ? & ?). by exists a.
Qed.

Lemma repel_places (i j : nat) (ns : list Node.t) :
  place <$> repel i ns j = place <$> ns.
Proof.
  unfold repel. destruct (ns !! i), (ns !! j); try done.
  case_decide; [|done]. by rewrite !places_alter.
Qed.

Lemma forcesAt_places width height drag (ns : list Node.t) (i : nat) :
  place <$> forcesAt width height drag ns i = place <$> ns.
Proof.
  unfold forcesAt. case_decide; [done|].
  apply (foldl_invariant (λ ns', place <$> ns' = place <$> ns)).
  - by apply places_alter.
  - intros ns' j _ <-. apply repel_places.
Qed.

Lemma forces_places width height drag (ns : list Node.t) :
  place <$> forces width height drag ns = place <$> ns.
Proof.
  unfold forces.
  apply (foldl_invariant (λ ns', place <$> ns' = place <$> ns)); [done|].
  intros ns' i _ <-. apply forcesAt_places.
Qed.

Lemma clearOfOthers_places (ns ns' : list Node.t) d n :
  place <$> ns' = place <$> ns → clearOfOthers ns d n → clearOfOthers ns' d n.
Proof.
  intros Hp Hclear i a' Hi Ha'.
  destruct (places_lookup ns ns' i a' Hp Ha') as (a & Ha & Hpa).
  injection Hpa as _ Hx Hy _. rewrite Hx, Hy. by eapply Hclear.
Qed.

Lemma clearOfOthers_alone (n : Node.t) : clearOfOthers [n] 0 n.
Proof. intros [|i] a Hi Ha; [done|by destruct i]. Qed.

Lemma repel_keeps (i j d : nat) (ns : list Node.t) (n : Node.t) :
  i ≠ d → ns !! d = Some n → clearOfOthers ns d n →
  repel i ns j !! d = Some n.
Proof.
  intros Hid Hn Hclear. unfold repel.
  destruct (ns !! i) as [a|] eqn:Ha; [|done].
  destruct (ns !! j) as [b|] eqn:Hb; [|done].
  case_decide as Hnear; [|done].
  destruct (decide (j = d)) as [->|Hjd].
  - assert (b = n) as -> by congruence.
    pose proof (Hclear i a Hid Ha). lra.
  - by rewrite !list_lookup_alter_ne.
Qed.

Lemma forcesAt_skipped width height (d : nat) (ns : list Node.t) :
  forcesAt width height (Some d) ns d = ns.
Proof. unfold forcesAt. by rewrite decide_True. Qed.

Lemma forcesAt_keeps width height (i d : nat) (ns : list Node.t) (n : Node.t) :
  ns !! d = Some n → clearOfOthers ns d n →
  forcesAt width height (Some d) ns i !! d = Some n.
Proof.
  intros Hn Hclear. unfold forcesAt. case_decide as Hi; [done|].
  assert (i ≠ d) as Hid by congruence.
  set (ns1 := alter (centerGravity width height) i ns).
  apply (foldl_invariant
    (λ ns', place <$> ns' = place <$> ns ∧ ns' !! d = Some n)).
  - split; [by apply places_alter|]. unfold ns1. by rewrite list_lookup_alter_ne.
  - intros ns' j _ [Hp Hn']. split; [by rewrite repel_places|].
    apply repel_keeps; [done..|]. by eapply clearOfOthers_places.
Qed.

Lemma forces_keeps width height (d : nat) (ns : list Node.t) (n : Node.t) :
  ns !! d = Some n → clearOfOthers ns d n →
  forces width height (Some d) ns !! d = Some n.
Proof.
  intros Hn Hclear. unfold forces.
  apply (foldl_invariant
    (λ ns', place <$> ns' = place <$> ns ∧ ns' !! d = Some n)); [done|].
  intros ns' i _ [Hp Hn']. split; [by rewrite forcesAt_places|].
  apply forcesAt_keeps; [done|]. by eapply clearOfOthers_places.
Qed.

Lemma spring_keeps (d : nat) (ns : list Node.t) (link : Link.t) :
  spring (Some d) ns link !! d = ns !! d.
Proof.
  unfold spring.
  destruct (findById _ ns) as [[si s]|]; [|done].
  destruct (findById _ ns) as [[ti t]|]; [|done].
  repeat case_decide; rewrite ?list_lookup_alter_ne; try done; congruence.
Qed.

Lemma springs_keeps (d : nat) (ns : list Node.t) (ls : list Link.t) :
  springs (Some d) ns ls !! d = ns !! d.
Proof.
  unfold springs. apply (foldl_invariant (λ ns', ns' !! d = ns !! d)); [done|].
  intros ns' l _ <-. apply spring_keeps.
Qed.

Lemma updatePositions_dragged width height hovered (d : nat) (ns : list Node.t) :
  updatePositions width height (Some d) hovered ns !! d =
  bounce width height <$> ns !! d.
Proof.
  unfold updatePositions. rewrite list_lookup_imap.
  destruct (ns !! d); [|done]. simpl. unfold updateNode.
  by rewrite decide_False by (by intros []).
Qed.


(** *** The dragged node *)

Lemma bounce_inBounds width height (n : Node.t) :
  inBounds width height n → bounce width height n = n.
Proof.
  intros [[??] [??]].
  unfold bounce, bounceBottom, bounceTop, bounceRight, bounceLeft.
  rewrite (decide_False (P := Node.x n < _)) by lra.
  rewrite (decide_False (P := Node.x n > _)) by lra.
  rewrite (decide_False (P := Node.y n < _)) by lra.
  by rewrite (decide_False (P := Node.y n > _)) by lra.
Qed.

Lemma bounce_place width height (m n : Node.t) :
  place m = place n →
  place (bounce width height m) = place (bounce width height n).
Proof.
  assert (∀ p q, place p = place q → place (bounceLeft p) = place (bounceLeft q))
    as HL.
  { intros [] []. unfold place, bounceLeft. node_simpl. intros [= -> -> -> ->].
    by case_decide. }
  assert (∀ p q, place p = place q →
            place (bounceRight width p) = place (bounceRight width q)) as HR.
  { intros [] []. unfold place, bounceRight. node_simpl. intros [= -> -> -> ->].
    by case_decide. }
  assert (∀ p q, place p = place q → place (bounceTop p) = place (bounceTop q))
    as HT.
  { intros [] []. unfold place, bounceTop. node_simpl. intros [= -> -> -> ->].
    by case_decide. }
  assert (∀ p q, place p = place q →
            place (bounceBottom height p) = place (bounceBottom height q)) as HB.
  { intros [] []. unfold place, bounceBottom. node_simpl. intros [= -> -> -> ->].
    by case_decide. }
  intros Hp. unfold bounce. by apply HB, HT, HR, HL.
Qed.

Lemma inBounds_place width height (m n : Node.t) :
  place m = place n → inBounds width height n → inBounds width height m.
Proof. unfold place, inBounds. by intros [= _ -> -> ->]. Qed.

Lemma animate_fields (s : Sim.t) :
  dragging (animate s) = dragging s ∧ viewport (animate s) = viewport s.
Proof.
  unfold animate, viewport.
  destruct (canvas s) as [[??]|] eqn:Hc; simpl; by rewrite ?Hc.
Qed.

Lemma animate_no_canvas (s : Sim.t) : viewport s = None → animate s = s.
Proof. unfold animate, viewport. by destruct (canvas s) as [[??]|]. Qed.

Lemma frames_no_canvas (k : nat) (s : Sim.t) : viewport s = None → frames k s = s.
Proof.
  intros Hv. induction k as [|k IH]; [done|].
  unfold frames in *. simpl. rewrite IH. by apply animate_no_canvas.
Qed.

Lemma animate_nodes (s : Sim.t) (w h : R) :
  viewport s = Some (w, h) →
  nodes (animate s) =
  physics w h (dragging s) (hoveredNode s) (nodes s) (links s).
Proof.
  unfold animate, viewport. destruct (canvas s) as [[??]|]; [|done].
  by intros [= <- <-].
Qed.

Lemma animate_dragged (s : Sim.t) (d : nat) (n : Node.t) (w h : R) :
  dragging s = Some d → nodes s !! d = Some n → viewport s = Some (w, h) →
  ∃ m, place m = place n ∧
       nodes (animate s) !! d = Some (bounce w h m) ∧
       (clearOfOthers (nodes s) d n → m = n).
Proof.
  intros Hd Hn Hv. rewrite (animate_nodes s w h Hv), Hd. unfold physics.
  rewrite updatePositions_dragged, springs_keeps.
  assert ((place <$> forces w h (Some d) (nodes s)) !! d = Some (place n)) as Hm.
  { by rewrite forces_places, list_lookup_fmap, Hn. }
  apply list_lookup_fmap_Some in Hm as (m & Hpm & Hm).
  exists m. rewrite Hm. split_and!; [done..|].
  intros Hclear. rewrite (forces_keeps w h d _ n Hn Hclear) in Hm. congruence.
Qed.

Lemma frames_dragged (k : nat) (s : Sim.t) (d : nat) (n : Node.t) (w h : R) :
  dragging s = Some d → nodes s !! d = Some n → viewport s = Some (w, h) →
  inBounds w h n →
  dragging (frames k s) = Some d ∧ viewport (frames k s) = Some (w, h) ∧
  ∃ m, nodes (frames k s) !! d = Some m ∧ place m = place n.
Proof.
  intros Hd Hn Hv Hin. induction k as [|k (IHd & IHv & m & IHm & IHp)].
  - split_and!; [done..|]. by exists n.
  - unfold frames in *. simpl.
    destruct (animate_fields (Nat.iter k animate s)) as [-> ->].
    split_and!; [done..|].
    destruct (animate_dragged _ d m w h IHd IHm IHv) as (m' & Hp' & Hm' & _).
    exists (bounce w h m'). split; [done|].
    rewrite bounce_inBounds; [congruence|].
    apply (inBounds_place w h m' n); [congruence|done].
Qed.

Lemma frames_clear (k : nat) (s : Sim.t) (d : nat) (n : Node.t) (w h : R) :
  dragging s = Some d → nodes s !! d = Some n →
  viewport s = Some (w, h) → inBounds w h n →
  (∀ j, (j < k)%nat → clearOfOthers (nodes (frames j s)) d n) →
  dragging (frames k s) = Some d ∧ viewport (frames k s) = Some (w, h) ∧
  nodes (frames k s) !! d = Some n.
Proof.
  intros Hd Hn Hv Hin. induction k as [|k IH]; intros Hclear; [done|].
  destruct IH as (IHd & IHv & IHn); [intros j Hj; apply Hclear; lia|].
  pose proof (Hclear k (Nat.lt_succ_diag_r k)) as Hk.
  unfold frames in *. simpl.
  destruct (animate_fields (Nat.iter k animate s)) as [-> ->].
  split_and!; [done..|].
  destruct (animate_dragged _ d n w h IHd IHn IHv) as (m & _ & Hm & Heq).
  by rewrite Hm, Heq, bounce_inBounds.
Qed.

(** C1, as the code has it.  While a node is the dragged node, a frame
    changes its position only through the boundary pass, which applies to
    every node: the new position is the old one clamped to the bounds, so a
    dragged node within the bounds keeps its position over any number of
    frames, whatever else is in the graph.  Its own pass of the force loop
    (centering and repulsion) is skipped, and the spring pass and the
    integration (cap, damping, move) never write to it.  A frame in which
    no other node is within the repulsion cutoff of it leaves its velocity
    alone too (up to the sign flip of a boundary clamp, which keeps zero at
    zero), and within the bounds it stays exactly as it is through any run
    of such frames.  A pointer-move puts it at the pointer with zero
    velocity. *)
Theorem C1_drag_exemption (s : Sim.t) (d : nat) (n : Node.t) :
  dragging s = Some d → nodes s !! d = Some n →
  (viewport s = None → ∀ k, frames k s = s) ∧
  (∀ w h, viewport s = Some (w, h) →
     (∃ n', nodes (animate s) !! d = Some n' ∧
            place n' = place (bounce w h n)) ∧
     (inBounds w h n → ∀ k,
        ∃ n', nodes (frames k s) !! d = Some n' ∧ place n' = place n) ∧
     (∀ ns, forcesAt w h (dragging s) ns d = ns) ∧
     (∀ ns, springs (dragging s) ns (links s) !! d = ns !! d) ∧
     (∀ ns, updatePositions w h (dragging s) (hoveredNode s) ns !! d =
              bounce w h <$> ns !! d) ∧
     (clearOfOthers (nodes s) d n →
        nodes (animate s) !! d = Some (bounce w h n)) ∧
     (inBounds w h n → ∀ k,
        (∀ j, (j < k)%nat → clearOfOthers (nodes (frames j s)) d n) →
        nodes (frames k s) !! d = Some n)) ∧
  (∀ px py,
     nodes (handleMouseMove px py s) !! d =
       Some (stop (Node.set_y py (Node.set_x px n)))).
Proof.
  intros Hd Hn. split_and!.
  - intros Hv k. by apply frames_no_canvas.
  - intros w h Hv. rewrite Hd. split_and!.
    + destruct (animate_dragged s d n w h Hd Hn Hv) as (m & Hp & Hm & _).
      exists (bounce w h m). split; [done|]. by apply bounce_place.
    + intros Hin k.
      by destruct (frames_dragged k s d n w h Hd Hn Hv Hin) as (_ & _ & ?).
    + intros ns. apply forcesAt_skipped.
    + intros ns. apply springs_keeps.
    + intros ns. apply updatePositions_dragged.
    + intros Hclear.
      destruct (animate_dragged s d n w h Hd Hn Hv) as (m & _ & Hm & Heq).
      by rewrite Hm, Heq.
    + intros Hin k Hclear.
      by destruct (frames_clear k s d n w h Hd Hn Hv Hin Hclear) as (_ & _ & ?).
  - intros px py. unfold handleMouseMove. simpl. rewrite Hd.
    by rewrite list_lookup_alter_eq, Hn.
Qed.

End ArrayFacts.

(** ** Concrete instances *)

Section Instances.
Import Sim.
Local Open Scope R_scope.

Lemma viewport_stage ns ls drag : viewport (stage ns ls drag) = Some (800, 600).
Proof.
  unfold viewport, stage. simpl. rewrite jsOr_nonzero by lra.
  do 2 f_equal; lra.
Qed.

Lemma capVelocity_slow (n : Node.t) : speed n <= maxVelocity → capVelocity n = n.
Proof.
  intros Hs. unfold capVelocity. fold (speed n).
  by rewrite decide_False by lra.
Qed.

(** The claim C1 as first stated fails twice.  In [crowded] the dragged
    node starts at rest and one frame gives it the velocity (36, 48): the
    repulsion loop of the node before it writes to it.  In [atTheEdge] one
    frame moves the dragged node from x = 5 to x = 16: the boundary pass
    applies to every node. *)
Lemma C1_counterexample :
  (dragging crowded = Some 1%nat ∧
   nodes crowded !! 1%nat = Some (directorNode 103 104 0 0) ∧
   nodes (animate crowded) !! 1%nat = Some (directorNode 103 104 36 48)) ∧
  (dragging atTheEdge = Some 0%nat ∧
   nodes atTheEdge !! 0%nat = Some (directorNode 5 300 0 0) ∧
   Node.x <$> nodes (animate atTheEdge) !! 0%nat = Some 16).
Proof.
  split; (split; [done|split; [done|]]).
  - unfold crowded. rewrite (animate_nodes _ _ _ (viewport_stage _ _ _)). simpl.
    unfold physics. rewrite updatePositions_dragged, springs_keeps.
    unfold forces, forcesAt. simpl.
    erewrite repel_eq by done. simpl.
    assert (dist (100 - 103) (100 - 104) = 5) as ->.
    { apply dist_of_sqrt; [lra|]. apply sqrt_sumsq; lra. }
    rewrite decide_True by lra. simpl.
    rewrite bounce_inBounds by (unfold inBounds; simpl; lra).
    unfold pull, directorNode, repulsion, Node.set_vy, Node.set_vx. simpl.
    do 2 f_equal; lra.
  - destruct (animate_dragged atTheEdge 0 (directorNode 5 300 0 0) 800 600
                eq_refl eq_refl (viewport_stage _ _ _)) as (m & _ & -> & ->).
    + unfold bounce, directorNode. eval_layer bounceLeft. eval_layer bounceRight.
      eval_layer bounceTop. eval_layer bounceBottom. simpl. f_equal. lra.
    + apply clearOfOthers_alone.
Qed.


Lemma tethered_clear :
  clearOfOthers (nodes (tethered (Some 1%nat))) 1 (directorNode 500 300 0 0).
Proof.
  intros [|[|i]] a Hi Ha; [|done|done]. injection Ha as <-.
  unfold filmNode, directorNode. simpl.
  rewrite (dist_of_sqrt _ _ 400); [lra|lra|]. apply sqrt_sumsq; lra.
Qed.

Lemma tethered_forces :
  forces 800 600 None [filmNode 100 300 0 0; directorNode 500 300 0 0] =
    [filmNode 100 300 9 0; directorNode 500 300 (-3) 0].
Proof.
  unfold forces, forcesAt. simpl.
  erewrite repel_eq by done. cbv zeta.
  unfold filmNode, directorNode, centerGravity, push. node_simpl.
  assert (dist (100 - 500) (300 - 300) = 400) as ->.
  { apply dist_of_sqrt; [lra|]. apply sqrt_sumsq; lra. }
  rewrite decide_False by lra. simpl. unfold centerForce.
  repeat (refine (f_equal2 cons _ _); [f_equal; lra|]). done.
Qed.

Lemma tethered_springs :
  springs None [filmNode 100 300 9 0; directorNode 500 300 (-3) 0]
    [Link.mk "f-1" "d-X"] =
    [filmNode 100 300 33 0; directorNode 500 300 (-27) 0].
Proof.
  unfold springs, spring, findById. simpl.
  assert (dist (500 - 100) (300 - 300) = 400) as ->.
  { apply dist_of_sqrt; [lra|]. apply sqrt_sumsq; lra. }
  unfold push, pull, filmNode, directorNode, springLength, k. node_simpl.
  repeat (refine (f_equal2 cons _ _); [f_equal; lra|]). done.
Qed.

Lemma tethered_update :
  updateNode 800 600 None None 1 (directorNode 500 300 (-27) 0) =
    directorNode 487.25 300 (-12.75) 0.
Proof.
  unfold updateNode. rewrite decide_True by done.
  unfold integrate, capVelocity, directorNode. node_simpl.
  rewrite (sqrt_sumsq (-27) 0 27) by lra.
  rewrite decide_True by (unfold maxVelocity; lra).
  unfold scaleVelocity, hoverDamp. node_simpl. rewrite decide_False by done.
  unfold move. node_simpl.
  rewrite bounce_inBounds by (unfold inBounds, maxVelocity, damping; simpl; lra).
  unfold maxVelocity, damping. f_equal; lra.
Qed.

(** With nothing dragged, one frame carries the director node of
    [tethered] from x = 500 to x = 487.25 at x-velocity -12.75: centering
    gives -3, the stretched edge -24, the cap 15 and damping 0.85. *)
Lemma tethered_released :
  nodes (animate (tethered None)) !! 1%nat =
    Some (directorNode 487.25 300 (-12.75) 0).
Proof.
  unfold tethered. rewrite (animate_nodes _ _ _ (viewport_stage _ _ _)). simpl.
  unfold physics, updatePositions.
  rewrite tethered_forces, tethered_springs, list_lookup_imap. simpl.
  by rewrite tethered_update.
Qed.

(** C1 at the director node of [tethered], dragged: one frame leaves it
    exactly as it is and three frames leave it where it is, although the
    film node is 400 away, the centering force and the stretched edge both
    pull at it, and the same frame with nothing dragged moves it. *)
Lemma C1_witness :
  dragging (tethered (Some 1%nat)) = Some 1%nat ∧
  nodes (tethered (Some 1%nat)) !! 1%nat = Some (directorNode 500 300 0 0) ∧
  nodes (frames 1 (tethered (Some 1%nat))) !! 1%nat =
    Some (directorNode 500 300 0 0) ∧
  (∃ n', nodes (frames 3 (tethered (Some 1%nat))) !! 1%nat = Some n' ∧
         place n' = place (directorNode 500 300 0 0)) ∧
  nodes (animate (tethered None)) !! 1%nat =
    Some (directorNode 487.25 300 (-12.75) 0).
Proof.
  split; [reflexivity|]. split; [reflexivity|].
  destruct (C1_drag_exemption (tethered (Some 1%nat)) 1
              (directorNode 500 300 0 0) eq_refl eq_refl) as (_ & H & _).
  destruct (H 800 600 (viewport_stage _ _ _)) as (_ & Hpos & _ & _ & _ & _ & Hrun).
  assert (inBounds 800 600 (directorNode 500 300 0 0)) as Hin.
  { unfold inBounds, directorNode. simpl. lra. }
  split_and!.
  - apply (Hrun Hin 1%nat). intros [|j] Hj; [exact tethered_clear|lia].
  - exact (Hpos Hin 3%nat).
  - exact tethered_released.
Defined.

Lemma integrate_slow (x y vx vy v : R) :
  0 <= v <= maxVelocity → vx * vx + vy * vy = v * v →
  integrate None (genreNode x y vx vy) =
  genreNode (x + vx * damping) (y + vy * damping) (vx * damping) (vy * damping).
Proof.
  intros Hv Hsq. unfold integrate. rewrite capVelocity_slow.
  - unfold genreNode, scaleVelocity. node_simpl.
    unfold hoverDamp. node_simpl. rewrite decide_False by done.
    unfold move. by node_simpl.
  - unfold speed, genreNode. node_simpl. rewrite (sqrt_sumsq vx vy v); lra.
Qed.

Lemma integrate_example :
  integrate None (genreNode 790 300 4 3) = genreNode 793.4 302.55 3.4 2.55.
Proof.
  rewrite (integrate_slow _ _ _ _ 5) by (unfold maxVelocity; lra).
  unfold genreNode, damping. f_equal; lra.
Qed.

(** The claim C2 as first stated fails for two nodes half a unit apart: the
    distance used is 0.5, not max(0.5, 1), and the repulsion impulse is
    6000, four times the coefficient. *)
Lemma C2_counterexample :
  dist (0.5 - 0) (0 - 0) = 0.5 ∧
  Rmax (sqrt ((0.5 - 0) * (0.5 - 0) + (0 - 0) * (0 - 0))) 1 = 1 ∧
  repulsion / (dist (0.5 - 0) (0 - 0) * dist (0.5 - 0) (0 - 0)) = 6000 ∧
  repulsion < 6000 ∧
  Node.vx <$> repel 0 [genreNode 0.5 0 0 0; directorNode 0 0 0 0] 1 =
    [6000; -6000].
Proof.
  assert (sqrt ((0.5 - 0) * (0.5 - 0) + (0 - 0) * (0 - 0)) = 0.5) as Hs
    by (apply sqrt_sumsq; lra).
  assert (dist (0.5 - 0) (0 - 0) = 0.5) as Hd
    by (apply dist_of_sqrt; [lra|done]).
  split_and!.
  - done.
  - rewrite Hs. apply Rmax_right. lra.
  - rewrite Hd. unfold repulsion. lra.
  - unfold repulsion. lra.
  - erewrite repel_eq by done. cbv zeta. unfold genreNode, directorNode.
    node_simpl. rewrite Hd, decide_True by lra.
    unfold push, pull, repulsion. simpl. node_simpl.
    repeat (refine (f_equal2 cons _ _); [lra|]). done.
Qed.

(** The claim C5 as first stated fails in a viewport 20 wide: a free node
    of radius 7 that integration carries to x = 10 at x-velocity 3.4 is
    beyond the right bound (3); it ends at x = 3 with its x-velocity still
    3.4, the left test having fired before the right one. *)
Lemma C5_counterexample :
  integrate None (genreNode 6.6 300 4 0) = genreNode 10 300 3.4 0 ∧
  Node.x (genreNode 10 300 3.4 0) > 20 - Node.radius (genreNode 10 300 3.4 0) - 10 ∧
  updateNode 20 600 None None 0 (genreNode 6.6 300 4 0) = genreNode 3 300 3.4 0.
Proof.
  assert (integrate None (genreNode 6.6 300 4 0) = genreNode 10 300 3.4 0) as Hi.
  { rewrite (integrate_slow _ _ _ _ 4) by (unfold maxVelocity; lra).
    unfold genreNode, damping. f_equal; lra. }
  split; [exact Hi|]. split; [simpl; lra|].
  unfold updateNode. rewrite decide_True by done. rewrite Hi.
  unfold bounce, genreNode. eval_layer bounceLeft. eval_layer bounceRight.
  eval_layer bounceTop. eval_layer bounceBottom. f_equal; lra.
Qed.

(** C4 at two overlapping nodes: the pointer is inside both hit areas and
    the first in array order is returned. *)
Lemma C4_witness :
  sqDistance 102 102 (directorNode 103 104 0 0) < (6 + 10) ^ 2 ∧
  hitTest [genreNode 100 100 0 0; directorNode 103 104 0 0] 102 102 =
    Some (0%nat, genreNode 100 100 0 0).
Proof.
  split; [unfold sqDistance; simpl; lra|].
  apply (proj1 (C4_hit_test [genreNode 100 100 0 0; directorNode 103 104 0 0]
                  102 102)).
  split; [reflexivity|]. split; [unfold sqDistance; simpl; lra|].
  intros j m _ Hj. lia.
Defined.

(** C5 at a genre node that integration carries to x = 793.4 in a viewport
    800 wide: it ends at x = 783 with its x-velocity negated. *)
Lemma C5_witness :
  Node.x (integrate None (genreNode 790 300 4 3)) >
    800 - Node.radius (integrate None (genreNode 790 300 4 3)) - 10 ∧
  Node.x (updateNode 800 600 None None 0 (genreNode 790 300 4 3)) = 783 ∧
  Node.vx (updateNode 800 600 None None 0 (genreNode 790 300 4 3)) = - 3.4.
Proof.
  assert (Node.x (integrate None (genreNode 790 300 4 3)) >
    800 - Node.radius (integrate None (genreNode 790 300 4 3)) - 10) as Hx.
  { rewrite integrate_example. simpl. lra. }
  split; [exact Hx|].
  destruct (C5_right_bounce 800 600 None None 0 (genreNode 790 300 4 3)
              ltac:(discriminate) Hx) as (_ & _ & Hx' & _ & _ & Hv & _).
  rewrite integrate_example in Hx', Hv. simpl in Hx', Hv.
  split; [lra|]. destruct Hv as [_ Hv]; lra.
Defined.

(** C6 at two free nodes five units apart. *)
Lemma C6_witness :
  sqrt ((100 - 103) * (100 - 103) + (100 - 104) * (100 - 104)) < 300 ∧
  ∃ a' b',
    forces 800 600 None [genreNode 100 100 0 0; directorNode 103 104 0 0] =
      [a'; b'] ∧
    (Node.vx a' - Node.vx (centerGravity 800 600 (genreNode 100 100 0 0))) +
    (Node.vx b' - Node.vx (centerGravity 800 600 (directorNode 103 104 0 0))) = 0 ∧
    (Node.vy a' - Node.vy (centerGravity 800 600 (genreNode 100 100 0 0))) +
    (Node.vy b' - Node.vy (centerGravity 800 600 (directorNode 103 104 0 0))) = 0.
Proof.
  assert (sqrt ((100 - 103) * (100 - 103) + (100 - 104) * (100 - 104)) < 300)
    as Hnear by (rewrite (sqrt_sumsq _ _ 5) by lra; lra).
  split; [exact Hnear|].
  destruct (C6_repulsion_symmetry 800 600 None (genreNode 100 100 0 0)
              (directorNode 103 104 0 0) ltac:(discriminate) ltac:(discriminate)
              Hnear) as (_ & a' & b' & Hf & Hax & Hay & Hbx & Hby).
  exists a', b'. split; [exact Hf|]. split; lra.
Defined.

(** C7 at a film node and a genre node exactly 100 apart. *)
Lemma C7_witness :
  let ns := [filmNode 200 300 1 2; genreNode 300 300 0 0] in
  sqrt ((300 - 200) * (300 - 200) + (300 - 300) * (300 - 300)) = springLength ∧
  spring None ns (Link.mk "f-1" "g-Drama") = ns.
Proof.
  assert (sqrt ((300 - 200) * (300 - 200) + (300 - 300) * (300 - 300))
          = springLength) as Hrest.
  { unfold springLength. apply sqrt_sumsq; lra. }
  split; [exact Hrest|].
  apply (C7_spring_equilibrium None
           [filmNode 200 300 1 2; genreNode 300 300 0 0]
           (Link.mk "f-1" "g-Drama") 0 1
           (filmNode 200 300 1 2) (genreNode 300 300 0 0)
           eq_refl eq_refl Hrest).
Defined.

(** C10 at a node that enters the pass at speed 50. *)
Lemma C10_witness :
  speed (updateNode 800 600 None None 0 (genreNode 400 300 40 30)) <= maxVelocity.
Proof.
  apply (C10_terminal_velocity 800 600 None None [genreNode 400 300 40 30] 0);
    [discriminate|reflexivity].
Defined.


(** C8 at a film with three directors, added to the empty graph: one
    Director edge, from the film to the first of them. *)
Lemma C8_witness :
  ∃ new,
    Builder.links
      (Builder.addFilm (λ _, 0.5) Builder.empty
         (Film.mk 7 "T" 6 ["Noir"] ["P"; "Q"; "R"])) =
      Builder.links Builder.empty ++ new ∧
    filter isDirectorEdge new = [Link.mk "f-7" "d-P"].
Proof.
  apply (C8_director_limiting (λ _, 0.5)
           (Film.mk 7 "T" 6 ["Noir"] ["P"; "Q"; "R"])).
Defined.

End Instances.

(** ** More about the graph builder *)

Section BuilderMore.
Variable random : nat → R.
Import Builder.

Lemma ids_pushLink s t st : ids (pushLink s t st) = ids st.
Proof. done. Qed.

Lemma ids_addNode_seen id type label data st :
  wf st →
  ids (addNode random id type label data st) =
  if decide (id ∈ ids st) then ids st else ids st ++ [id].
Proof.
  intros Hwf. rewrite ids_addNode.
  destruct (decide (id ∈ nodeMap st)) as [Hin|Hin].
  - rewrite decide_True; [done|]. by apply Hwf.
  - rewrite decide_False; [done|]. intros ?. by apply Hin, Hwf.
Qed.

Lemma ids_addGenres fid gs st :
  wf st → fid ∈ ids st →
  ids (foldl (addGenre random fid) st gs) =
  foldl (λ acc x, if decide (x ∈ acc) then acc else acc ++ [x]) (ids st)
    ((λ g, "g-" +:+ g) <$> gs).
Proof.
  revert st. induction gs as [|g gs IH]; intros st Hwf Hf; [done|].
  simpl. destruct (addGenre_wf random fid st g Hwf Hf) as [Hwf' Hf'].
  rewrite IH by done. f_equal.
  unfold addGenre. by rewrite ids_pushLink, ids_addNode_seen.
Qed.

Lemma ids_addFilm st f :
  wf st →
  ids (addFilm random st f) =
  foldl (λ acc x, if decide (x ∈ acc) then acc else acc ++ [x]) (ids st)
    (mentions f).
Proof.
  intros Hwf. unfold addFilm, mentions, filmId.
  set (fid := "f-" +:+ pretty (Film.id f)).
  set (st1 := addNode random fid film (Film.title f) (Some f) st).
  assert (wf st1) as Hwf1 by (by apply addNode_wf; [apply kindPrefix_append|]).
  assert (fid ∈ ids st1) as Hf1 by by apply addNode_in.
  destruct (addGenres_wf random fid (Film.genres f) st1 Hwf1 Hf1) as [Hwf2 _].
  simpl. rewrite foldl_app, <-(ids_addNode_seen fid film (Film.title f) (Some f)) by done.
  fold st1. rewrite <-(ids_addGenres fid (Film.genres f) st1) by done.
  destruct (Film.directors f) as [|d ds]; [done|].
  simpl. by rewrite ids_pushLink, ids_addNode_seen.
Qed.

Lemma ids_addFilms films st :
  wf st →
  ids (foldl (addFilm random) st films) =
  foldl (λ acc x, if decide (x ∈ acc) then acc else acc ++ [x]) (ids st)
    (films ≫= mentions).
Proof.
  revert st. induction films as [|f fs IH]; intros st Hwf; [done|].
  simpl. rewrite foldl_app, IH by (by apply addFilm_wf).
  by rewrite ids_addFilm.
Qed.

(** X1. The node ids of a built graph are exactly the ids its films
    mention (film, genres, first director), each once, in the order of
    first mention; a second or later director never gets a node. *)
Theorem X1_nodes_in_first_mention_order (films : list Film.t)
    (container : option (R * R)) :
  let g := buildGraph random films container in
  ids g = firstSeen (films ≫= mentions) ∧
  (∀ i, i ∈ ids g ↔ ∃ f, f ∈ films ∧ i ∈ mentions f) ∧
  length (nodes g) <= length (films ≫= mentions).
Proof.
  intros g.
  assert (ids g = firstSeen (films ≫= mentions)) as Hids.
  { unfold g, buildGraph. rewrite ids_centerLayout.
    by rewrite ids_addFilms by apply wf_empty. }
  assert (∀ (l acc : list string),
    (∀ i, i ∈ foldl (λ acc x, if decide (x ∈ acc) then acc else acc ++ [x]) acc l
          ↔ i ∈ acc ∨ i ∈ l) ∧
    length (foldl (λ acc x, if decide (x ∈ acc) then acc else acc ++ [x]) acc l)
      <= length acc + length l) as Hseen.
  { induction l as [|x l IH]; intros acc; simpl.
    - split; [set_solver|lia].
    - destruct (IH (if decide (x ∈ acc) then acc else acc ++ [x])) as [IH1 IH2].
      split.
      + intros i. rewrite IH1. case_decide; set_solver.
      + etrans; [apply IH2|]. case_decide; rewrite ?length_app; simpl; lia. }
  split_and!; [done| |].
  - intros i. rewrite Hids. unfold firstSeen.
    rewrite (proj1 (Hseen _ _)), list_elem_of_bind. set_solver.
  - rewrite <-(length_fmap Node.id). fold (ids g). rewrite Hids.
    unfold firstSeen. etrans; [apply Hseen|]. done.
Qed.

(** X2. The edge list of a built graph is, film by film and in input
    order, the film's genre edges followed by its director edge; edges are
    never de-duplicated, so their number is the number of genre entries
    plus the number of films that have a director. *)
Theorem X2_edges_in_input_order (films : list Film.t)
    (container : option (R * R)) :
  let g := buildGraph random films container in
  links g = films ≫= (λ f, genreLinks f ++ directorLinks f) ∧
  length (links g) =
    sum_list ((λ f, length (Film.genres f) +
                    (if Film.directors f is [] then 0 else 1)) <$> films).
Proof.
  intros g.
  assert (links g = films ≫= (λ f, genreLinks f ++ directorLinks f)) as Hl.
  { unfold g, buildGraph. by rewrite links_centerLayout, links_addFilms. }
  split; [done|]. rewrite Hl. clear.
  induction films as [|f fs IH]; [done|].
  rewrite bind_cons, fmap_cons, !length_app, IH. simpl.
  unfold genreLinks, directorLinks. rewrite length_fmap.
  by destruct (Film.directors f).
Qed.


Lemma nodes_addNode_eq id type label data st :
  nodes (addNode random id type label data st) =
  if decide (id ∈ nodeMap st) then nodes st
  else nodes st ++
       [Node.mk id type label (random (calls st) * 800)%R
          (random (S (calls st)) * 600)%R 0%R 0%R (nodeRadius type data)
          (nodeColor type) data].
Proof. unfold addNode. by case_decide. Qed.

Lemma addNode_Forall (P : Node.t → Prop) id type label data st :
  Forall P (nodes st) →
  (id ∉ nodeMap st → ∀ k k',
     P (Node.mk id type label (random k * 800)%R (random k' * 600)%R 0%R 0%R
          (nodeRadius type data) (nodeColor type) data)) →
  Forall P (nodes (addNode random id type label data st)).
Proof.
  intros Hst Hnew. rewrite nodes_addNode_eq. case_decide; [done|].
  apply Forall_app. split; [done|]. apply Forall_singleton. by apply Hnew.
Qed.

Lemma addGenres_Forall (P : Node.t → Prop) fid gs st :
  Forall P (nodes st) →
  (∀ g k k', P (Node.mk ("g-" +:+ g) genre g (random k * 800)%R
                  (random k' * 600)%R 0%R 0%R 7%R "#ec4899" None)) →
  Forall P (nodes (foldl (addGenre random fid) st gs)).
Proof.
  intros Hst Hg. revert st Hst. induction gs as [|g gs IH]; intros st Hst; [done|].
  simpl. apply IH. unfold addGenre, pushLink. simpl.
  apply addNode_Forall; [done|]. intros _ k k'. apply Hg.
Qed.

Lemma addFilm_Forall (P : Node.t → Prop) st f :
  Forall P (nodes st) →
  (filmId f ∉ nodeMap st → ∀ k k',
     P (Node.mk (filmId f) film (Film.title f) (random k * 800)%R
          (random k' * 600)%R 0%R 0%R (nodeRadius film (Some f)) "#0ea5e9"
          (Some f))) →
  (∀ g k k', P (Node.mk ("g-" +:+ g) genre g (random k * 800)%R
                  (random k' * 600)%R 0%R 0%R 7%R "#ec4899" None)) →
  (∀ d k k', P (Node.mk ("d-" +:+ d) director d (random k * 800)%R
                  (random k' * 600)%R 0%R 0%R 6%R "#fbbf24" None)) →
  Forall P (nodes (addFilm random st f)).
Proof.
  intros Hst Hf Hg Hd. unfold addFilm.
  assert (Forall P (nodes (foldl (addGenre random ("f-" +:+ pretty (Film.id f)))
            (addNode random ("f-" +:+ pretty (Film.id f)) film (Film.title f)
               (Some f) st) (Film.genres f)))) as H1.
  { apply addGenres_Forall; [|done]. by apply addNode_Forall. }
  destruct (Film.directors f) as [|d ds]; [done|].
  unfold pushLink. simpl. apply addNode_Forall; [done|]. intros _ k k'. apply Hd.
Qed.

Lemma addFilms_Forall (P : Node.t → Prop) films st :
  Forall P (nodes st) →
  (∀ id type label data k k',
     P (Node.mk id type label (random k * 800)%R (random k' * 600)%R 0%R 0%R
          (nodeRadius type data) (nodeColor type) data)) →
  Forall P (nodes (foldl (addFilm random) st films)).
Proof.
  intros Hst HP. revert st Hst.
  induction films as [|f fs IH]; intros st Hst; [done|].
  simpl. apply IH. apply addFilm_Forall; [done|..].
  - intros _ k k'. apply (HP (filmId f) film (Film.title f) (Some f)).
  - intros g k k'. apply (HP ("g-" +:+ g) genre g None).
  - intros d k k'. apply (HP ("d-" +:+ d) director d None).
Qed.

Lemma faithfulTo_more (done more : list Film.t) (n : Node.t) :
  faithfulTo done n → faithfulTo (done ++ more) n.
Proof.
  unfold faithfulTo. intros [Hc Hn]. split; [done|].
  destruct (Node.type n); [|done..].
  destruct Hn as (i & f & Hfind & ?). exists i, f.
  split; [|done]. by apply list_find_app_l.
Qed.

Lemma addFilm_faithful (done : list Film.t) st f :
  wf st → Forall (faithfulTo done) (nodes st) →
  (∀ f', f' ∈ done → filmId f' ∈ ids st) →
  Forall (faithfulTo (done ++ [f])) (nodes (addFilm random st f)) ∧
  (∀ f', f' ∈ done ++ [f] → filmId f' ∈ ids (addFilm random st f)).
Proof.
  intros Hwf Hst Hdone. split.
  - apply addFilm_Forall.
    + eapply Forall_impl; [done|]. intros n. apply faithfulTo_more.
    + intros Hfresh k k'. split; [done|]. simpl.
      exists (length done), f. split; [|done].
      rewrite list_find_app_r.
      * simpl. by rewrite decide_True by done.
      * apply list_find_None, Forall_forall. intros f' Hf' Heq.
        apply Hfresh, Hwf. unfold filmId in *. rewrite <-Heq. by apply Hdone.
    + intros g k k'. done.
    + intros d k k'. done.
  - intros f' Hf'. rewrite ids_addFilm by done.
    assert (∀ (l acc : list string) (i : string), i ∈ acc ∨ i ∈ l →
      i ∈ foldl (λ acc x, if decide (x ∈ acc) then acc else acc ++ [x]) acc l)
      as Hseen.
    { induction l as [|x l IH]; intros acc i; simpl; [set_solver|].
      intros Hi. apply IH. case_decide; set_solver. }
    apply Hseen. apply elem_of_app in Hf' as [Hf'| ->%list_elem_of_singleton].
    + left. by apply Hdone.
    + right. unfold mentions. set_solver.
Qed.

Lemma addFilms_faithful (films done : list Film.t) st :
  wf st → Forall (faithfulTo done) (nodes st) →
  (∀ f', f' ∈ done → filmId f' ∈ ids st) →
  Forall (faithfulTo (done ++ films)) (nodes (foldl (addFilm random) st films)).
Proof.
  revert done st. induction films as [|f fs IH]; intros done st Hwf Hst Hdone.
  - by rewrite app_nil_r.
  - simpl. destruct (addFilm_faithful done st f Hwf Hst Hdone) as [H1 H2].
    rewrite (assoc_L (++) done [f] fs : done ++ f :: fs = (done ++ [f]) ++ fs).
    apply IH; [by apply addFilm_wf|done..].
Qed.

Lemma centerLayout_Forall (P : Node.t → Prop) c st :
  (∀ n x y, P n → P (Node.set_y y (Node.set_x x n))) →
  Forall P (nodes st) → Forall P (nodes (centerLayout random c st)).
Proof.
  intros HP Hst. destruct c as [[w h]|]; [|done]. simpl.
  apply Forall_forall. intros n (i & m & -> & Hm)%elem_of_lookup_imap.
  apply HP. rewrite Forall_forall in Hst. apply Hst.
  by eapply list_elem_of_lookup_2.
Qed.

Lemma buildGraph_faithful (films : list Film.t) (container : option (R * R)) :
  Forall (faithfulTo films) (nodes (buildGraph random films container)).
Proof.
  unfold buildGraph. apply centerLayout_Forall; [done|].
  apply (addFilms_faithful films [] empty); [apply wf_empty|done|set_solver].
Qed.

(** X3. Every node of a built graph reports its origin faithfully: a film
    node carries the first film of the input with that id (a later film with
    the same id changes nothing) and has its label and radius from it; a
    genre or director node carries no film, is named by its label and has
    the fixed radius of its kind; colors follow kinds. *)
Theorem X3_nodes_faithful (films : list Film.t) (container : option (R * R)) :
  Forall (faithfulTo films) (nodes (buildGraph random films container)).
Proof. apply buildGraph_faithful. Qed.

(** X4. When the random source stays in [0, 1), every node of a built graph
    starts at rest, and inside the 800 x 600 box, or within 100 of the
    container's center on each axis when the container is mounted. *)
Theorem X4_initial_placement (films : list Film.t) (container : option (R * R)) :
  (∀ k, (0 <= random k < 1)%R) →
  Forall (startsAt container) (nodes (buildGraph random films container)).
Proof.
  intros Hr. unfold buildGraph.
  assert (Forall (startsAt None) (nodes (foldl (addFilm random) empty films)))
    as Hfold.
  { apply addFilms_Forall; [by apply Forall_nil_2|].
    intros. unfold startsAt. simpl.
    pose proof (Hr k). pose proof (Hr k'). split_and!; [done|done|lra..]. }
  destruct container as [[w h]|]; [|done]. simpl.
  apply Forall_forall. intros n (i & m & -> & Hm)%elem_of_lookup_imap.
  rewrite Forall_forall in Hfold.
  destruct (Hfold m) as (Hvx & Hvy & _); [by eapply list_elem_of_lookup_2|].
  unfold startsAt. simpl.
  repeat match goal with
  | |- context [random ?k] =>
      lazymatch goal with
      | H : (0 <= random k < 1)%R |- _ => fail
      | _ => pose proof (Hr k)
      end
  end.
  split_and!; [done|done|lra..].
Qed.

End BuilderMore.

Section BuilderShape.
Import Builder.

Lemma structure_set_xy (n : Node.t) (x y : R) :
  structure (Node.set_y y (Node.set_x x n)) = structure n.
Proof. done. Qed.

Lemma structures_centerLayout random c st :
  structure <$> nodes (centerLayout random c st) = structure <$> nodes st.
Proof. destruct c as [[??]|]; [|done]. by apply fmap_imap_stable. Qed.

(** Two build states that differ only in positions and in the number of
    random draws stay so under the same [addNode] call, whatever the two
    random sources are. *)
Lemma addNode_shape r1 r2 id type label data st1 st2 :
  structure <$> nodes st1 = structure <$> nodes st2 →
  links st1 = links st2 → nodeMap st1 = nodeMap st2 →
  structure <$> nodes (addNode r1 id type label data st1) =
    structure <$> nodes (addNode r2 id type label data st2) ∧
  links (addNode r1 id type label data st1) =
    links (addNode r2 id type label data st2) ∧
  nodeMap (addNode r1 id type label data st1) =
    nodeMap (addNode r2 id type label data st2).
Proof.
  intros Hn Hl Hm. rewrite !nodes_addNode_eq, !links_addNode, !nodeMap_addNode.
  rewrite Hm. case_decide; [done|].
  by rewrite !fmap_app, Hn.
Qed.

Lemma addGenres_shape r1 r2 fid gs st1 st2 :
  structure <$> nodes st1 = structure <$> nodes st2 →
  links st1 = links st2 → nodeMap st1 = nodeMap st2 →
  structure <$> nodes (foldl (addGenre r1 fid) st1 gs) =
    structure <$> nodes (foldl (addGenre r2 fid) st2 gs) ∧
  links (foldl (addGenre r1 fid) st1 gs) =
    links (foldl (addGenre r2 fid) st2 gs) ∧
  nodeMap (foldl (addGenre r1 fid) st1 gs) =
    nodeMap (foldl (addGenre r2 fid) st2 gs).
Proof.
  revert st1 st2. induction gs as [|g gs IH]; intros st1 st2 Hn Hl Hm; [done|].
  simpl.
  destruct (addNode_shape r1 r2 ("g-" +:+ g) genre g None st1 st2 Hn Hl Hm)
    as (Hn' & Hl' & Hm').
  apply IH; unfold addGenre, pushLink; simpl; [done| |done]. by rewrite Hl'.
Qed.

Lemma addFilm_shape r1 r2 f st1 st2 :
  structure <$> nodes st1 = structure <$> nodes st2 →
  links st1 = links st2 → nodeMap st1 = nodeMap st2 →
  structure <$> nodes (addFilm r1 st1 f) = structure <$> nodes (addFilm r2 st2 f) ∧
  links (addFilm r1 st1 f) = links (addFilm r2 st2 f) ∧
  nodeMap (addFilm r1 st1 f) = nodeMap (addFilm r2 st2 f).
Proof.
  intros Hn Hl Hm. unfold addFilm.
  destruct (addNode_shape r1 r2 ("f-" +:+ pretty (Film.id f)) film
              (Film.title f) (Some f) st1 st2 Hn Hl Hm) as (Hn1 & Hl1 & Hm1).
  destruct (addGenres_shape r1 r2 ("f-" +:+ pretty (Film.id f)) (Film.genres f)
              _ _ Hn1 Hl1 Hm1) as (Hn2 & Hl2 & Hm2).
  destruct (Film.directors f) as [|d ds]; [done|].
  destruct (addNode_shape r1 r2 ("d-" +:+ d) director d None _ _ Hn2 Hl2 Hm2)
    as (Hn3 & Hl3 & Hm3).
  unfold pushLink. simpl. by rewrite Hl3.
Qed.

Lemma addFilms_shape r1 r2 films st1 st2 :
  structure <$> nodes st1 = structure <$> nodes st2 →
  links st1 = links st2 → nodeMap st1 = nodeMap st2 →
  structure <$> nodes (foldl (addFilm r1) st1 films) =
    structure <$> nodes (foldl (addFilm r2) st2 films) ∧
  links (foldl (addFilm r1) st1 films) = links (foldl (addFilm r2) st2 films).
Proof.
  revert st1 st2. induction films as [|f fs IH]; intros st1 st2 Hn Hl Hm; [done|].
  simpl. destruct (addFilm_shape r1 r2 f st1 st2 Hn Hl Hm) as (? & ? & ?).
  by apply IH.
Qed.

Lemma addNode_grows r id type label data st :
  structure <$> nodes st `prefix_of`
    structure <$> nodes (addNode r id type label data st).
Proof.
  rewrite nodes_addNode_eq. case_decide; [done|].
  rewrite fmap_app. by apply prefix_app_r.
Qed.

Lemma addGenres_grows r fid gs st :
  structure <$> nodes st `prefix_of`
    structure <$> nodes (foldl (addGenre r fid) st gs).
Proof.
  apply (foldl_invariant
    (λ st', structure <$> nodes st `prefix_of` structure <$> nodes st'));
    [done|].
  intros st' g _ Hst'. etrans; [exact Hst'|].
  unfold addGenre, pushLink. simpl. apply addNode_grows.
Qed.

Lemma addFilm_grows r st f :
  structure <$> nodes st `prefix_of` structure <$> nodes (addFilm r st f).
Proof.
  unfold addFilm.
  etrans; [apply (addNode_grows r ("f-" +:+ pretty (Film.id f)) film
                    (Film.title f) (Some f))|].
  etrans; [apply (addGenres_grows r ("f-" +:+ pretty (Film.id f))
                    (Film.genres f))|].
  destruct (Film.directors f) as [|d ds]; [done|].
  unfold pushLink. simpl. apply addNode_grows.
Qed.

Lemma addFilms_grows r films st :
  structure <$> nodes st `prefix_of`
    structure <$> nodes (foldl (addFilm r) st films).
Proof.
  apply (foldl_invariant
    (λ st', structure <$> nodes st `prefix_of` structure <$> nodes st'));
    [done|].
  intros st' f _ Hst'. etrans; [exact Hst'|]. apply addFilm_grows.
Qed.

(** X5. The structure of a built graph (ids, kinds, labels, radii, colors,
    payloads, in order, and the edge list) does not depend on the random
    source or on the container.  When the dashboard appends a page of films
    to the list, the rebuilt graph extends the previous one: the old nodes
    and edges come first, unchanged and in the same order. *)
Theorem X5_rebuild_after_load (r1 r2 : nat → R) (c1 c2 : option (R * R))
    (prev res : list Film.t) :
  let old := buildGraph r1 prev c1 in
  let appended := buildGraph r2 (mergeFilms false prev res) c2 in
  let replaced := buildGraph r2 (mergeFilms true prev res) c2 in
  structure <$> nodes old `prefix_of` structure <$> nodes appended ∧
  links old `prefix_of` links appended ∧
  structure <$> nodes replaced = structure <$> nodes (buildGraph r1 res c1) ∧
  links replaced = links (buildGraph r1 res c1).
Proof.
  intros old appended replaced.
  unfold old, appended, replaced, buildGraph, mergeFilms.
  rewrite !structures_centerLayout, !links_centerLayout.
  destruct (addFilms_shape r2 r1 res empty empty) as [Hn Hl]; [done..|].
  destruct (addFilms_shape r1 r2 prev empty empty) as [Hn' Hl']; [done..|].
  split_and!; [| |done..].
  - rewrite foldl_app, Hn'. apply addFilms_grows.
  - rewrite foldl_app, Hl', (links_addFilms r2 res). by apply prefix_app_r.
Qed.

End BuilderShape.

(** ** More about the simulation and the pointer *)

Section SimMore.
Import Sim.
Local Open Scope R_scope.

Lemma fmap_alter_stable {B} (p : Node.t → B) (f : Node.t → Node.t) (i : nat)
    (ns : list Node.t) :
  (∀ n, p (f n) = p n) → p <$> alter f i ns = p <$> ns.
Proof.
  intros Hf. rewrite (list_fmap_alter p f (λ b, b)).
  - by apply list_alter_id.
  - apply Forall_forall. intros n _. apply Hf.
Qed.

Lemma structure_bounce width height n :
  structure (bounce width height n) = structure n.
Proof.
  assert (∀ m, structure (bounceLeft m) = structure m) as HL
    by (intros m; unfold bounceLeft; by case_decide).
  assert (∀ m, structure (bounceRight width m) = structure m) as HR
    by (intros m; unfold bounceRight; by case_decide).
  assert (∀ m, structure (bounceTop m) = structure m) as HT
    by (intros m; unfold bounceTop; by case_decide).
  assert (∀ m, structure (bounceBottom height m) = structure m) as HB
    by (intros m; unfold bounceBottom; by case_decide).
  unfold bounce. by rewrite HB, HT, HR, HL.
Qed.

Lemma structure_integrate hovered n :
  structure (integrate hovered n) = structure n.
Proof.
  assert (∀ m, structure (capVelocity m) = structure m) as HC
    by (intros m; unfold capVelocity; by case_decide).
  assert (∀ m, structure (hoverDamp hovered m) = structure m) as HH
    by (intros m; unfold hoverDamp; by case_decide).
  unfold integrate.
  change (structure (hoverDamp hovered (scaleVelocity damping (capVelocity n))) =
          structure n).
  by rewrite HH, <-(HC n).
Qed.

Lemma structure_updateNode width height drag hovered i n :
  structure (updateNode width height drag hovered i n) = structure n.
Proof.
  unfold updateNode. rewrite structure_bounce.
  case_decide; [apply structure_integrate|done].
Qed.

Lemma structures_repel i ns j : structure <$> repel i ns j = structure <$> ns.
Proof.
  unfold repel. destruct (ns !! i), (ns !! j); try done.
  case_decide; [|done]. by rewrite !fmap_alter_stable.
Qed.

Lemma structures_spring drag ns link :
  structure <$> spring drag ns link = structure <$> ns.
Proof.
  unfold spring.
  destruct (findById _ ns) as [[si s]|]; [|done].
  destruct (findById _ ns) as [[ti t]|]; [|done].
  repeat case_decide; by rewrite ?fmap_alter_stable.
Qed.

Lemma structures_physics width height drag hovered ns ls :
  structure <$> physics width height drag hovered ns ls = structure <$> ns.
Proof.
  unfold physics, updatePositions.
  rewrite fmap_imap_stable by apply structure_updateNode.
  unfold springs.
  etrans; [apply (foldl_invariant
    (λ ns', structure <$> ns' = structure <$> forces width height drag ns));
    [done|]|].
  { intros ns' l _ <-. apply structures_spring. }
  unfold forces.
  apply (foldl_invariant (λ ns', structure <$> ns' = structure <$> ns)); [done|].
  intros ns' i _ <-. unfold forcesAt. case_decide; [done|].
  apply (foldl_invariant (λ ns'', structure <$> ns'' = structure <$> ns')).
  - by apply fmap_alter_stable.
  - intros ns'' j _ <-. apply structures_repel.
Qed.

Lemma handle_keeps (s : Sim.t) (e : Event) :
  structure <$> nodes (handle s e) = structure <$> nodes s ∧
  links (handle s e) = links s ∧
  devicePixelRatio (handle s e) = devicePixelRatio s.
Proof.
  destruct e; simpl.
  - unfold animate. destruct (canvas s) as [[cw ch]|]; [|done]. simpl.
    by rewrite structures_physics.
  - unfold handleMouseDown. destruct (hitTest _ _ _) as [[i n]|]; [|done].
    simpl. by rewrite fmap_alter_stable.
  - unfold handleMouseMove. simpl.
    destruct (dragging s); [|done]. by rewrite fmap_alter_stable.
  - done.
  - done.
Qed.

Lemma run_keeps (es : list Event) (s : Sim.t) :
  structure <$> nodes (run es s) = structure <$> nodes s ∧
  links (run es s) = links s.
Proof.
  unfold run.
  apply (foldl_invariant (λ s', structure <$> nodes s' = structure <$> nodes s ∧
                                links s' = links s)); [done|].
  intros s' e _ [<- <-]. by destruct (handle_keeps s' e) as (? & ? & _).
Qed.

(** X6. No sequence of frames and pointer events changes the
    graph itself: the nodes keep their number, order, ids, kinds, labels,
    radii, colors and payloads, and the edge list stays as it is; only
    positions, velocities and the drag and hover state move. *)
Theorem X6_events_keep_the_graph (es : list Event) (s : Sim.t) :
  structure <$> nodes (run es s) = structure <$> nodes s ∧
  links (run es s) = links s ∧
  length (nodes (run es s)) = length (nodes s).
Proof.
  destruct (run_keeps es s) as [Hn Hl].
  split_and!; [done..|].
  by rewrite <-(length_fmap structure), Hn, length_fmap.
Qed.

Lemma faithfulTo_structure films n m :
  structure n = structure m → faithfulTo films m → faithfulTo films n.
Proof. unfold structure, faithfulTo. by intros [= -> -> -> -> -> ->]. Qed.

(** X7. In a graph built from [films], after any events, a double click
    navigates exactly when the first node under the pointer is a film
    node, and then to the detail route of the film whose id that node
    bears; on a genre node, a director node or empty space it does
    nothing. *)
Theorem X7_double_click (random : nat → R) (films : list Film.t)
    (container canvas : option (R * R)) (dpr : R) (es : list Event)
    (px py : R) (route : string) :
  let s := run es (mount (Builder.buildGraph random films container) canvas dpr) in
  handleDoubleClick px py s = Some route ↔
  ∃ i n f, hitTest (nodes s) px py = Some (i, n) ∧ Node.type n = film ∧
           f ∈ films ∧ Node.id n = "f-" +:+ pretty (Film.id f) ∧
           route = "/film/" +:+ pretty (Film.id f).
Proof.
  intros s.
  assert (∀ i n, hitTest (nodes s) px py = Some (i, n) →
                 faithfulTo films n) as Hfaith.
  { intros i n (Hn & _)%list_find_Some.
    destruct (run_keeps es
      (mount (Builder.buildGraph random films container) canvas dpr))
      as (Hst & _). fold s in Hst. simpl in Hst.
    assert ((structure <$> nodes s) !! i = Some (structure n)) as Hi
      by (by rewrite list_lookup_fmap, Hn).
    rewrite Hst in Hi. apply list_lookup_fmap_Some in Hi as (m & Hsm & Hm).
    apply (faithfulTo_structure films n m Hsm).
    pose proof (buildGraph_faithful random films container) as Hall.
    rewrite Forall_forall in Hall. apply Hall.
    by eapply list_elem_of_lookup_2. }
  unfold handleDoubleClick.
  destruct (hitTest (nodes s) px py) as [[i n]|] eqn:Hhit.
  - destruct (Hfaith i n eq_refl) as [_ Hn]. split.
    + destruct (Node.type n) eqn:Hty; [|done..].
      destruct Hn as (k & f & Hfind & Hdata & Hid & _).
      rewrite Hdata. intros [= <-]. exists i, n, f.
      apply list_find_Some in Hfind as (Hk & _).
      split_and!; [done..|by eapply list_elem_of_lookup_2|done|done].
    + intros (i' & n' & f & [= <- <-] & Hty & Hf & Hid & ->).
      rewrite Hty in Hn |- *. destruct Hn as (k & f' & _ & Hdata & Hid' & _).
      rewrite Hdata. unfold filmId in Hid'. rewrite Hid in Hid'.
      injection Hid' as Hp. change (pretty (Film.id f) = pretty (Film.id f')) in Hp.
      by rewrite Hp.
  - split; [done|]. by intros (? & ? & ? & ? & _).
Qed.


(** X8. A press on a node followed by a move: the first node under the
    press is the dragged node; after the move it sits at the pointer, at
    rest, and every other node is where it was; if its hit area is not
    empty, some node is hovered, and it is the dragged node or one before
    it in the array; releasing clears the drag and moves nothing. *)
Theorem X8_press_then_move (s : Sim.t) (px py qx qy : R) (i : nat) (n : Node.t) :
  hitTest (nodes s) px py = Some (i, n) →
  let s' := run [MouseDown px py; MouseMove qx qy] s in
  dragging s' = Some i ∧
  nodes s' !! i = Some (stop (Node.set_y qy (Node.set_x qx n))) ∧
  (∀ j, j ≠ i → nodes s' !! j = nodes s !! j) ∧
  (Node.radius n + 10 ≠ 0 →
     ∃ j m, (j <= i)%nat ∧ nodes s' !! j = Some m ∧
            hoveredNode s' = Some (Node.id m)) ∧
  dragging (handle s' MouseUp) = None ∧
  nodes (handle s' MouseUp) = nodes s'.
Proof.
  intros Hhit s'. pose proof Hhit as (Hn & _)%list_find_Some.
  assert (nodes s' =
          alter (λ n, stop (Node.set_y qy (Node.set_x qx n))) i
            (alter stop i (nodes s))) as Hnodes.
  { unfold s', run. simpl. unfold handleMouseDown. rewrite Hhit.
    unfold handleMouseMove. done. }
  assert (nodes s' !! i = Some (stop (Node.set_y qy (Node.set_x qx n)))) as Hi.
  { rewrite Hnodes, !list_lookup_alter_eq, Hn. done. }
  split_and!.
  - unfold s', run. simpl. unfold handleMouseDown. by rewrite Hhit.
  - done.
  - intros j Hj. by rewrite Hnodes, !list_lookup_alter_ne.
  - intros Hr.
    assert (hit qx qy (stop (Node.set_y qy (Node.set_x qx n)))) as Hhit'.
    { unfold hit. simpl. nra. }
    assert (hoveredNode s' =
            match hitTest (nodes s') qx qy with
            | Some (_, m) => Some (Node.id m)
            | None => None
            end) as Hhov.
    { rewrite Hnodes. unfold s', run. simpl. unfold handleMouseDown.
      rewrite Hhit. done. }
    destruct (hitTest (nodes s') qx qy) as [[j m]|] eqn:Hfind.
    + exists j, m. apply list_find_Some in Hfind as (Hj & _ & Hmin).
      split_and!; [|done..].
      destruct (decide (j <= i)%nat) as [|Hlt]; [done|].
      destruct (Hmin i _ Hi); [lia|done].
    + apply list_find_None in Hfind. rewrite Forall_forall in Hfind.
      destruct (Hfind _ (list_elem_of_lookup_2 _ _ _ Hi) Hhit').
  - done.
  - done.
Qed.

(** *** After a frame *)

Lemma bounce_lands (width height : R) (n : Node.t) :
  2 * (Node.radius n + 10) <= width → 2 * (Node.radius n + 10) <= height →
  inBounds width height (bounce width height n) ∧
  Node.radius (bounce width height n) = Node.radius n.
Proof.
  intros Hw Hh.
  assert (∀ m, let m2 := bounceRight width (bounceLeft m) in
     2 * (Node.radius m + 10) <= width →
     Node.radius m2 = Node.radius m ∧ Node.y m2 = Node.y m ∧
     Node.radius m + 10 <= Node.x m2 <= width - (Node.radius m + 10)) as HX.
  { intros m m2 Hm. unfold m2, bounceRight, bounceLeft.
    destruct (decide (Node.x m < Node.radius m + 10)); node_simpl;
      case_decide; node_simpl; split_and!; try done; lra. }
  assert (∀ m, let m4 := bounceBottom height (bounceTop m) in
     2 * (Node.radius m + 10) <= height →
     Node.radius m4 = Node.radius m ∧ Node.x m4 = Node.x m ∧
     Node.radius m + 10 <= Node.y m4 <= height - (Node.radius m + 10)) as HY.
  { intros m m4 Hm. unfold m4, bounceBottom, bounceTop.
    destruct (decide (Node.y m < Node.radius m + 10)); node_simpl;
      case_decide; node_simpl; split_and!; try done; lra. }
  unfold bounce.
  destruct (HX n Hw) as (Hr2 & Hy2 & Hx2).
  destruct (HY (bounceRight width (bounceLeft n))) as (Hr4 & Hx4 & Hy4);
    [by rewrite Hr2|].
  unfold inBounds. rewrite Hr4, Hx4, Hr2. rewrite Hr2 in Hy4. done.
Qed.

(** X9. After a frame every node, the dragged one included, that the
    viewport is wide and high enough to hold (2 * (radius + 10) on each
    axis) lies within the bounds. *)
Theorem X9_frame_contains_nodes (s : Sim.t) (w h : R) (i : nat) (n' : Node.t) :
  viewport s = Some (w, h) →
  nodes (animate s) !! i = Some n' →
  2 * (Node.radius n' + 10) <= w → 2 * (Node.radius n' + 10) <= h →
  inBounds w h n'.
Proof.
  intros Hv Hn' Hw Hh. rewrite (animate_nodes s w h Hv) in Hn'.
  unfold physics, updatePositions in Hn'.
  apply list_lookup_imap_Some in Hn' as (m & _ & ->).
  unfold updateNode in *.
  set (q := if decide (dragging s ≠ Some i) then integrate (hoveredNode s) m else m)
    in *.
  assert (Node.radius (bounce w h q) = Node.radius q) as Hr.
  { pose proof (structure_bounce w h q) as Hs. by injection Hs. }
  rewrite Hr in Hw, Hh. by apply bounce_lands.
Qed.

Lemma integrate_tight (hovered : option string) (n : Node.t) :
  let m := integrate hovered n in
  Node.vx m * Node.vx m + Node.vy m * Node.vy m <= 12.75 * 12.75 ∧
  (hovered = Some (Node.id n) →
   Node.vx m * Node.vx m + Node.vy m * Node.vy m <= 1.275 * 1.275).
Proof.
  pose proof (capVelocity_bound n) as Hc. simpl in *.
  assert (Node.id (capVelocity n) = Node.id n) as Hid
    by (unfold capVelocity; by case_decide).
  unfold integrate, move, hoverDamp, scaleVelocity, damping, maxVelocity in *.
  node_simpl. rewrite Hid.
  set (c := capVelocity n) in *.
  case_decide; node_simpl; (split; [nra|intros Hh; first [done|nra]]).
Qed.

(** X10. After the update-positions pass a node that is not dragged moves
    at most 12.75 per frame (the cap of 15 times the damping), and at most
    1.275 when it is the hovered node. *)
Theorem X10_speed_after_damping (width height : R) (drag : option nat)
    (hovered : option string) (ns : list Node.t) (i : nat) (n' : Node.t) :
  drag ≠ Some i →
  updatePositions width height drag hovered ns !! i = Some n' →
  speed n' <= 12.75 ∧ (hovered = Some (Node.id n') → speed n' <= 1.275).
Proof.
  intros Hdrag Hn'. unfold updatePositions in Hn'.
  apply list_lookup_imap_Some in Hn' as (n & Hn & ->).
  pose proof (structure_updateNode width height drag hovered i n) as Hs.
  injection Hs as Hid _ _ _ _ _. rewrite Hid.
  unfold updateNode. rewrite decide_True by done.
  pose proof (bounce_speed width height (integrate hovered n)) as Hb.
  destruct (integrate_tight hovered n) as [H1 H2]. simpl in Hb, H1, H2.
  split; [|intros Hhov]; (apply speed_le; [lra|]); rewrite Hb; auto.
Qed.

(** *** The force passes on the whole array *)

Lemma foldl_ext_in {A B} (f g : A → B → A) (l : list B) (a : A) :
  (∀ a b, b ∈ l → f a b = g a b) → foldl f a l = foldl g a l.
Proof.
  revert a. induction l as [|b l IH]; intros a Hfg; [done|].
  simpl. rewrite Hfg by left. apply IH. intros a' b' Hb'. apply Hfg. by right.
Qed.

Lemma length_spring drag ns link : length (spring drag ns link) = length ns.
Proof.
  by rewrite <-(length_fmap structure), structures_spring, length_fmap.
Qed.

Lemma findById_lt id ns i n : findById id ns = Some (i, n) → (i < length ns)%nat.
Proof. intros (Hn & _)%list_find_Some. by eapply lookup_lt_Some. Qed.

Lemma physics_stale_drag width height hovered (d : nat) ns ls :
  (length ns <= d)%nat →
  physics width height (Some d) hovered ns ls =
  physics width height None hovered ns ls.
Proof.
  intros Hd. unfold physics.
  assert (forces width height (Some d) ns = forces width height None ns) as ->.
  { unfold forces. apply foldl_ext_in. intros ns' i [_ Hi]%elem_of_seq.
    unfold forcesAt. rewrite decide_False by (intros [= ->]; lia).
    by rewrite decide_False. }
  assert (length (forces width height None ns) <= d)%nat as Hlen.
  { rewrite <-(length_fmap place), forces_places, length_fmap. done. }
  assert (∀ ns', (length ns' <= d)%nat →
            springs (Some d) ns' ls = springs None ns' ls) as Hsp.
  { unfold springs. induction ls as [|l ls IH]; intros ns' Hns'; [done|].
    simpl.
    assert (spring (Some d) ns' l = spring None ns' l) as ->.
    { unfold spring.
      destruct (findById (Link.source l) ns') as [[si src]|] eqn:Hs; [|done].
      destruct (findById (Link.target l) ns') as [[ti tgt]|] eqn:Ht; [|done].
      apply findById_lt in Hs. apply findById_lt in Ht.
      rewrite !(decide_True (P := Some d ≠ _)) by (intros [= ->]; lia).
      by rewrite !(decide_True (P := None ≠ _)). }
    apply IH. by rewrite length_spring. }
  rewrite Hsp by done.
  unfold updatePositions. apply imap_ext. intros i n Hi%lookup_lt_Some.
  unfold updateNode. rewrite decide_True; [by rewrite decide_True|].
  intros [= ->].
  assert (length (springs None (forces width height None ns) ls) = length ns)
    as Hl.
  { unfold springs.
    apply (foldl_invariant (λ ns', length ns' = length ns)).
    - by rewrite <-(length_fmap place), forces_places, length_fmap.
    - intros ns' l _ <-. apply length_spring. }
  lia.
Qed.

(** X11. A drag reference that denotes no node of the array (its index is
    past the end, as after the graph shrank) has no effect on a frame: the
    frame moves the nodes exactly as with nothing dragged. *)
Theorem X11_stale_drag_is_no_drag (s : Sim.t) (d : nat) :
  dragging s = Some d → (length (nodes s) <= d)%nat →
  nodes (animate s) = nodes (animate (handleMouseUp s)).
Proof.
  intros Hd Hlen. unfold animate, handleMouseUp. simpl.
  destruct (canvas s) as [[cw ch]|]; [|done]. simpl.
  rewrite Hd. by apply physics_stale_drag.
Qed.

Lemma sumR_app (l k : list R) : sumR (l ++ k) = sumR l + sumR k.
Proof. induction l as [|x l IH]; simpl; [lra|]. rewrite IH. lra. Qed.

Lemma sumR_alter (p : Node.t → R) (f : Node.t → Node.t) (i : nat)
    (ns : list Node.t) (a : Node.t) :
  ns !! i = Some a →
  sumR (p <$> alter f i ns) = sumR (p <$> ns) + (p (f a) - p a).
Proof.
  revert i. induction ns as [|n ns IH]; intros [|i] Hi; simplify_eq/=.
  - lra.
  - rewrite (IH i Hi). lra.
Qed.

(** Adding an impulse to one node and taking it from another (or from the
    same one) leaves both velocity sums as they were. *)
Lemma push_pull_sums (fx fy : R) (i j : nat) (ns : list Node.t) :
  is_Some (ns !! i) → is_Some (ns !! j) →
  sumR (Node.vx <$> alter (pull fx fy) j (alter (push fx fy) i ns)) =
    sumR (Node.vx <$> ns) ∧
  sumR (Node.vy <$> alter (pull fx fy) j (alter (push fx fy) i ns)) =
    sumR (Node.vy <$> ns).
Proof.
  intros [a Ha] [b Hb].
  assert (is_Some (alter (push fx fy) i ns !! j)) as [b' Hb'].
  { apply lookup_lt_is_Some. rewrite length_alter. by eapply lookup_lt_Some. }
  rewrite (sumR_alter Node.vx _ j _ b' Hb'), (sumR_alter Node.vx _ i _ a Ha).
  rewrite (sumR_alter Node.vy _ j _ b' Hb'), (sumR_alter Node.vy _ i _ a Ha).
  unfold push, pull. node_simpl. split; lra.
Qed.

Lemma spring_sums (ns : list Node.t) (link : Link.t) :
  sumR (Node.vx <$> spring None ns link) = sumR (Node.vx <$> ns) ∧
  sumR (Node.vy <$> spring None ns link) = sumR (Node.vy <$> ns).
Proof.
  unfold spring.
  destruct (findById (Link.source link) ns) as [[si src]|] eqn:Hs; [|done].
  destruct (findById (Link.target link) ns) as [[ti tgt]|] eqn:Ht; [|done].
  rewrite !decide_True by done.
  apply list_find_Some in Hs as (Hs & _). apply list_find_Some in Ht as (Ht & _).
  by apply push_pull_sums.
Qed.

(** X12. With nothing dragged the spring pass conserves momentum: the sum
    of the x-velocities and the sum of the y-velocities over all nodes are
    the same before and after, for any edge list. *)
Theorem X12_springs_conserve_momentum (ns : list Node.t) (ls : list Link.t) :
  sumR (Node.vx <$> springs None ns ls) = sumR (Node.vx <$> ns) ∧
  sumR (Node.vy <$> springs None ns ls) = sumR (Node.vy <$> ns).
Proof.
  unfold springs.
  apply (foldl_invariant
    (λ ns', sumR (Node.vx <$> ns') = sumR (Node.vx <$> ns) ∧
            sumR (Node.vy <$> ns') = sumR (Node.vy <$> ns))); [done|].
  intros ns' l _ [<- <-]. apply spring_sums.
Qed.


Lemma repel_sums (i j : nat) (ns : list Node.t) :
  sumR (Node.vx <$> repel i ns j) = sumR (Node.vx <$> ns) ∧
  sumR (Node.vy <$> repel i ns j) = sumR (Node.vy <$> ns).
Proof.
  unfold repel.
  destruct (ns !! i) as [a|] eqn:Ha; [|done].
  destruct (ns !! j) as [b|] eqn:Hb; [|done].
  case_decide; [|done]. by apply push_pull_sums.
Qed.

Lemma forcesAt_sums width height drag (ns : list Node.t) (i : nat) (a : Node.t) :
  ns !! i = Some a →
  sumR (Node.vx <$> forcesAt width height drag ns i) =
    sumR (Node.vx <$> ns) + centerPullX width drag i a ∧
  sumR (Node.vy <$> forcesAt width height drag ns i) =
    sumR (Node.vy <$> ns) + centerPullY height drag i a.
Proof.
  intros Ha. unfold forcesAt, centerPullX, centerPullY.
  case_decide; [split; lra|].
  set (ns1 := alter (centerGravity width height) i ns).
  assert (sumR (Node.vx <$> ns1) =
            sumR (Node.vx <$> ns) + (width / 2 - Node.x a) * centerForce ∧
          sumR (Node.vy <$> ns1) =
            sumR (Node.vy <$> ns) + (height / 2 - Node.y a) * centerForce)
    as [Hx Hy].
  { unfold ns1. rewrite !(sumR_alter _ _ i ns a Ha).
    unfold centerGravity, push. node_simpl. split; lra. }
  rewrite <-Hx, <-Hy.
  apply (foldl_invariant
    (λ ns', sumR (Node.vx <$> ns') = sumR (Node.vx <$> ns1) ∧
            sumR (Node.vy <$> ns') = sumR (Node.vy <$> ns1))); [done|].
  intros ns' j _ [<- <-]. apply repel_sums.
Qed.

Lemma forces_prefix_sums width height drag (ns : list Node.t) (k : nat) :
  (k <= length ns)%nat →
  let ns' := foldl (forcesAt width height drag) ns (seq 0 k) in
  place <$> ns' = place <$> ns ∧
  sumR (Node.vx <$> ns') =
    sumR (Node.vx <$> ns) + sumR (take k (imap (centerPullX width drag) ns)) ∧
  sumR (Node.vy <$> ns') =
    sumR (Node.vy <$> ns) + sumR (take k (imap (centerPullY height drag) ns)).
Proof.
  induction k as [|k IH]; intros Hk; cbv zeta in *.
  - simpl. split_and!; [done|lra..].
  - destruct IH as (Hp & Hx & Hy); [lia|].
    rewrite seq_S, foldl_app. simpl foldl.
    change (0 + k)%nat with k.
    set (nsk := foldl (forcesAt width height drag) ns (seq 0 k)) in *.
    destruct (lookup_lt_is_Some_2 ns k) as [n Hn]; [lia|].
    assert (is_Some (nsk !! k)) as [a Ha].
    { apply lookup_lt_is_Some.
      rewrite <-(length_fmap place), Hp, length_fmap. lia. }
    destruct (places_lookup ns nsk k a Hp Ha) as (n' & Hn' & Hpa).
    assert (n' = n) as -> by congruence.
    injection Hpa as _ Hxa Hya _.
    destruct (forcesAt_sums width height drag nsk k a Ha) as [Hx' Hy'].
    split_and!.
    + by rewrite forcesAt_places.
    + rewrite Hx', Hx.
      rewrite (take_S_r _ k (centerPullX width drag k n))
        by (by rewrite list_lookup_imap, Hn).
      rewrite sumR_app. simpl. unfold centerPullX. rewrite Hxa. lra.
    + rewrite Hy', Hy.
      rewrite (take_S_r _ k (centerPullY height drag k n))
        by (by rewrite list_lookup_imap, Hn).
      rewrite sumR_app. simpl. unfold centerPullY. rewrite Hya. lra.
Qed.

(** X13. Repulsion conserves momentum, whatever is dragged: over the whole
    force loop the sum of the x-velocities (and of the y-velocities) of all
    nodes changes by exactly the centering impulses of the nodes that are
    not dragged. *)
Theorem X13_forces_momentum (width height : R) (drag : option nat)
    (ns : list Node.t) :
  sumR (Node.vx <$> forces width height drag ns) =
    sumR (Node.vx <$> ns) + sumR (imap (centerPullX width drag) ns) ∧
  sumR (Node.vy <$> forces width height drag ns) =
    sumR (Node.vy <$> ns) + sumR (imap (centerPullY height drag) ns).
Proof.
  destruct (forces_prefix_sums width height drag ns (length ns))
    as (_ & Hx & Hy); [done|].
  rewrite !take_ge in Hx, Hy by (by rewrite length_imap). done.
Qed.

Lemma ids_spring drag ns link : Node.id <$> spring drag ns link = Node.id <$> ns.
Proof.
  unfold spring.
  destruct (findById _ ns) as [[si s]|]; [|done].
  destruct (findById _ ns) as [[ti t]|]; [|done].
  repeat case_decide; by rewrite ?fmap_alter_stable.
Qed.

Lemma spring_detached drag ns link :
  ¬ attached (Node.id <$> ns) link → spring drag ns link = ns.
Proof.
  intros Hna. unfold spring.
  destruct (findById (Link.source link) ns) as [[si s]|] eqn:Hs; [|done].
  destruct (findById (Link.target link) ns) as [[ti t]|] eqn:Ht; [|done].
  destruct Hna. split.
  - apply list_find_Some in Hs as (Hs & <- & _).
    apply list_elem_of_fmap. exists s. split; [done|].
    by eapply list_elem_of_lookup_2.
  - apply list_find_Some in Ht as (Ht & <- & _).
    apply list_elem_of_fmap. exists t. split; [done|].
    by eapply list_elem_of_lookup_2.
Qed.

(** X14. Edges with an endpoint id that no node has are skipped by the
    spring pass: it acts exactly as on the edge list with those edges
    removed, and with no attached edge at all it changes nothing. *)
Theorem X14_dangling_edges_skipped (drag : option nat) (ns : list Node.t)
    (ls : list Link.t) :
  springs drag ns ls =
    springs drag ns (filter (attached (Node.id <$> ns)) ls) ∧
  (Forall (λ l, ¬ attached (Node.id <$> ns) l) ls → springs drag ns ls = ns).
Proof.
  assert (∀ ns', Node.id <$> ns' = Node.id <$> ns →
            springs drag ns' ls =
            springs drag ns' (filter (attached (Node.id <$> ns)) ls)) as Hgen.
  { unfold springs. induction ls as [|l ls IH]; intros ns' Hids; [done|].
    destruct (decide (attached (Node.id <$> ns) l)) as [Hl|Hl].
    - rewrite filter_cons_True by done. simpl. apply IH.
      by rewrite ids_spring.
    - rewrite filter_cons_False by done. simpl.
      rewrite spring_detached by (by rewrite Hids). by apply IH. }
  split; [exact (Hgen ns eq_refl)|].
  intros Hall. rewrite (Hgen ns eq_refl).
  replace (filter (attached (Node.id <$> ns)) ls) with (@nil Link.t); [done|].
  symmetry. clear Hgen. induction ls as [|l ls IH]; [done|].
  apply Forall_cons in Hall as [Hl Hls].
  rewrite filter_cons_False by done. by apply IH.
Qed.


(** *** Direction and size of the two pair forces *)

Lemma zero_impulse (d f : R) : 0 / d * f = 0.
Proof. unfold Rdiv. ring. Qed.

(** X15. Two nodes at exactly the same position exert no force on each
    other: the zero-distance guard avoids the division by zero, and the
    direction (dx, dy) = (0, 0) makes both the repulsion and the spring
    impulse vanish, so repulsion never separates coincident nodes. *)
Theorem X15_coincident_nodes_feel_nothing (drag : option nat) (ns : list Node.t) :
  (∀ i j a b, ns !! i = Some a → ns !! j = Some b →
     Node.x a = Node.x b → Node.y a = Node.y b → repel i ns j = ns) ∧
  (∀ link si ti s t,
     findById (Link.source link) ns = Some (si, s) →
     findById (Link.target link) ns = Some (ti, t) →
     Node.x s = Node.x t → Node.y s = Node.y t → spring drag ns link = ns).
Proof.
  split.
  - intros i j a b Ha Hb Hx Hy. unfold repel. rewrite Ha, Hb.
    replace (Node.x a - Node.x b) with 0 by lra.
    replace (Node.y a - Node.y b) with 0 by lra.
    rewrite !zero_impulse.
    rewrite !(list_alter_id (push 0 0)) by apply push_zero.
    rewrite !(list_alter_id (pull 0 0)) by apply pull_zero.
    by case_decide.
  - intros link si ti s t Hs Ht Hx Hy. unfold spring. rewrite Hs, Ht.
    replace (Node.x t - Node.x s) with 0 by lra.
    replace (Node.y t - Node.y s) with 0 by lra.
    rewrite !zero_impulse.
    rewrite !(list_alter_id (push 0 0)) by apply push_zero.
    rewrite !(list_alter_id (pull 0 0)) by apply pull_zero.
    by repeat case_decide.
Qed.

Lemma along_separation (dx dy d f : R) :
  0 < d → dx * dx + dy * dy = d * d →
  dx / d * f * dx + dy / d * f * dy = f * d.
Proof.
  intros Hd Hsq.
  replace (dx / d * f * dx + dy / d * f * dy)
    with ((dx * dx + dy * dy) * f / d) by (field; lra).
  rewrite Hsq. field. lra.
Qed.

(** X16. An edge between two distinct free nodes at distance d > 0 gives
    its source the impulse (fx, fy) and its target the opposite one, where
    (fx, fy) projected on the direction from source to target is
    (d - 100) * 0.08 * d: the spring pulls the endpoints together when the
    edge is longer than the rest length and pushes them apart when it is
    shorter. *)
Theorem X16_spring_restores (drag : option nat) (ns : list Node.t)
    (link : Link.t) (si ti : nat) (s t : Node.t) :
  findById (Link.source link) ns = Some (si, s) →
  findById (Link.target link) ns = Some (ti, t) →
  si ≠ ti → drag ≠ Some si → drag ≠ Some ti →
  let dx := Node.x t - Node.x s in
  let dy := Node.y t - Node.y s in
  let d := sqrt (dx * dx + dy * dy) in
  0 < d →
  let fx := dx / d * ((d - springLength) * k) in
  let fy := dy / d * ((d - springLength) * k) in
  spring drag ns link !! si = Some (push fx fy s) ∧
  spring drag ns link !! ti = Some (pull fx fy t) ∧
  fx * dx + fy * dy = (d - springLength) * k * d ∧
  (springLength < d → 0 < fx * dx + fy * dy) ∧
  (d < springLength → fx * dx + fy * dy < 0).
Proof.
  intros Hs Ht Hne Hds Hdt dx dy d Hd fx fy.
  assert (dist dx dy = d) as Hdist by (by apply dist_of_sqrt).
  assert (dx * dx + dy * dy = d * d) as Hsq.
  { unfold d. rewrite sqrt_sqrt; [done|apply sumsq_nonneg]. }
  assert (fx * dx + fy * dy = (d - springLength) * k * d) as Hproj
    by (by apply along_separation).
  pose proof Hs as (Hs' & _)%list_find_Some.
  pose proof Ht as (Ht' & _)%list_find_Some.
  unfold spring. rewrite Hs, Ht. fold dx dy. rewrite Hdist. fold fx fy.
  rewrite !decide_True by done.
  split_and!.
  - by rewrite list_lookup_alter_ne, list_lookup_alter_eq, Hs'.
  - by rewrite list_lookup_alter_eq, list_lookup_alter_ne, Ht'.
  - done.
  - intros Hlong. rewrite Hproj. unfold springLength, k in *. nra.
  - intros Hshort. rewrite Hproj. unfold springLength, k in *. nra.
Qed.

(** X17. Two distinct nodes at distance d with 0 < d < 300 repel: the
    first gets an impulse (fx, fy) of size 1500 / d^2 that points away from
    the second, which gets the opposite impulse; at distance 300 or more
    the pair is left alone. *)
Theorem X17_repulsion_pushes_apart (ns : list Node.t) (i j : nat)
    (a b : Node.t) :
  ns !! i = Some a → ns !! j = Some b → i ≠ j →
  let dx := Node.x a - Node.x b in
  let dy := Node.y a - Node.y b in
  let d := sqrt (dx * dx + dy * dy) in
  (300 <= d → repel i ns j = ns) ∧
  (0 < d < 300 →
     let fx := dx / d * (repulsion / (d * d)) in
     let fy := dy / d * (repulsion / (d * d)) in
     repel i ns j !! i = Some (push fx fy a) ∧
     repel i ns j !! j = Some (pull fx fy b) ∧
     fx * dx + fy * dy = repulsion / d ∧ 0 < fx * dx + fy * dy ∧
     sqrt (fx * fx + fy * fy) = repulsion / (d * d)).
Proof.
  intros Ha Hb Hne dx dy d.
  assert (dx * dx + dy * dy = d * d) as Hsq.
  { unfold d. rewrite sqrt_sqrt; [done|apply sumsq_nonneg]. }
  split.
  - intros Hfar. unfold repel. rewrite Ha, Hb. fold dx dy.
    rewrite (dist_of_sqrt dx dy d) by (done || lra).
    by rewrite decide_False by lra.
  - intros [Hd0 Hd] fx fy.
    assert (dist dx dy = d) as Hdist by (by apply dist_of_sqrt).
    assert (0 < repulsion / (d * d)) as Hf.
    { unfold repulsion. apply Rdiv_lt_0_compat; nra. }
    assert (fx * dx + fy * dy = repulsion / d) as Hproj.
    { unfold fx, fy. rewrite along_separation by done. field. lra. }
    unfold repel. rewrite Ha, Hb. fold dx dy. rewrite Hdist.
    rewrite decide_True by done. fold fx fy.
    split_and!.
    + by rewrite list_lookup_alter_ne, list_lookup_alter_eq, Ha.
    + by rewrite list_lookup_alter_eq, list_lookup_alter_ne, Hb.
    + done.
    + rewrite Hproj. unfold repulsion. apply Rdiv_lt_0_compat; lra.
    + apply sqrt_lem_1; [apply sumsq_nonneg|lra|].
      unfold fx, fy.
      replace (dx / d * (repulsion / (d * d)) * (dx / d * (repulsion / (d * d))) +
               dy / d * (repulsion / (d * d)) * (dy / d * (repulsion / (d * d))))
        with ((dx * dx + dy * dy) / (d * d) *
              (repulsion / (d * d) * (repulsion / (d * d)))) by (field; lra).
      rewrite Hsq. field. lra.
Qed.

End SimMore.

(** ** The film card and the log listeners *)

Section Neighbours.

(** X18. The image a film card shows always has a URL that starts with
    http: the film's own image when it is present, non-empty and starts
    with http, and otherwise the placeholder seeded with the film's id. *)
Theorem X18_card_image_is_http (image : option string) (id : Z) :
  String.prefix "http" (imageUrl image id) = true ∧
  (∀ img, image = Some img → String.prefix "http" img = true →
     imageUrl image id = img) ∧
  (∀ img, image = Some img → String.prefix "http" img = false →
     imageUrl image id =
       "https://picsum.photos/seed/" +:+ pretty id +:+ "/300/450") ∧
  (image = None →
     imageUrl image id =
       "https://picsum.photos/seed/" +:+ pretty id +:+ "/300/450").
Proof.
  unfold imageUrl. split_and!.
  - destruct image as [img|]; [|done].
    destruct (String.prefix "http" img) eqn:Hp; [|by rewrite andb_false_r].
    by case_bool_decide.
  - intros img -> Hp. rewrite Hp.
    case_bool_decide as Hne; [done|].
    assert (img = "") as -> by (by destruct (decide (img = ""))). done.
  - intros img -> Hp. by rewrite Hp, andb_false_r.
  - by intros ->.
Qed.


Lemma unsubscribe_absent (l : nat) (ls : list nat) :
  l ∉ ls → Log.unsubscribe l ls = ls.
Proof.
  intros Hl. unfold Log.unsubscribe, Log.indexOf.
  rewrite (proj2 (list_find_None (λ x, x = l) ls)); [done|].
  apply Forall_forall. intros x Hx ->. done.
Qed.

Lemma unsubscribe_first (l : nat) (l1 l2 : list nat) :
  l ∉ l1 → Log.unsubscribe l (l1 ++ l :: l2) = l1 ++ l2.
Proof.
  intros Hl. unfold Log.unsubscribe, Log.indexOf.
  rewrite list_find_app_r.
  - simpl. rewrite decide_True by done. simpl. apply delete_middle.
  - apply list_find_None, Forall_forall. intros x Hx ->. done.
Qed.

(** X19. Subscribing a log listener and then calling the function that
    [subscribeToLogs] returned gives back the same listeners; if the
    listener was not subscribed before, the list is exactly as it was,
    and if it was, its earlier subscription is the one removed, so the
    order changes but nothing else. *)
Theorem X19_subscribe_then_unsubscribe (l : nat) (ls : list nat) :
  Log.unsubscribe l (Log.subscribe l ls) ≡ₚ ls ∧
  (l ∉ ls → Log.unsubscribe l (Log.subscribe l ls) = ls) ∧
  (l ∈ ls →
     Log.unsubscribe l (Log.subscribe l ls) = Log.unsubscribe l ls ++ [l]).
Proof.
  unfold Log.subscribe.
  destruct (decide (l ∈ ls)) as [Hin|Hnin].
  - apply list_elem_of_split_l in Hin as (l1 & l2 & -> & Hl1).
    rewrite <-app_assoc, <-app_comm_cons, !unsubscribe_first by done.
    split_and!; [|set_solver|by rewrite app_assoc].
    apply Permutation_app_head, (Permutation_app_comm l2 [l]).
  - rewrite (unsubscribe_first l ls []), app_nil_r by done.
    split_and!; [done|done|]. intros ?. done.
Qed.

(** X20. Unsubscribing removes the first subscription of that listener
    and nothing else: a listener that is not subscribed leaves the list
    alone; otherwise, with the list split at the first subscription of the
    listener, what is left is the part before it followed by the part after
    it, so a later subscription of the same listener stays where it is.  A
    listener subscribed several times therefore stays subscribed one time
    fewer, and the other listeners keep their order; a new subscriber is
    notified after all earlier ones. *)
Theorem X20_unsubscribe_removes_one (l : nat) (ls : list nat) :
  (l ∉ ls → Log.unsubscribe l ls = ls) ∧
  (∀ before after, ls = before ++ l :: after → l ∉ before →
     Log.unsubscribe l ls = before ++ after) ∧
  (l ∈ ls → ∃ before after,
     ls = before ++ l :: after ∧ (l ∉ before) ∧
     Log.unsubscribe l ls = before ++ after) ∧
  (l ∈ ls → ls ≡ₚ l :: Log.unsubscribe l ls) ∧
  length (filter (λ x, x = l) (Log.unsubscribe l ls)) =
    (length (filter (λ x, x = l) ls) - 1)%nat ∧
  filter (λ x, x ≠ l) (Log.unsubscribe l ls) = filter (λ x, x ≠ l) ls ∧
  (∀ (A : Type) (log : A),
     Log.notifyListeners (Log.subscribe l ls) log =
       Log.notifyListeners ls log ++ [(l, log)]).
Proof.
  assert (∀ (A : Type) (log : A),
     Log.notifyListeners (Log.subscribe l ls) log =
       Log.notifyListeners ls log ++ [(l, log)]) as Hnotify.
  { intros A log. unfold Log.notifyListeners, Log.subscribe.
    by rewrite fmap_app. }
  assert (∀ before after, ls = before ++ l :: after → l ∉ before →
            Log.unsubscribe l ls = before ++ after) as Hfirst.
  { intros before after -> Hb. by apply unsubscribe_first. }
  split; [apply unsubscribe_absent|]. split; [exact Hfirst|]. split.
  { intros Hin. apply list_elem_of_split_l in Hin as (l1 & l2 & Heq & Hl1).
    exists l1, l2. split_and!; [done..|]. by apply Hfirst. }
  clear Hfirst. destruct (decide (l ∈ ls)) as [Hin|Hnin].
  - apply list_elem_of_split_l in Hin as (l1 & l2 & -> & Hl1).
    rewrite unsubscribe_first by done.
    split_and!; [by rewrite Permutation_middle| | |exact Hnotify].
    + rewrite !filter_app, filter_cons_True, !length_app by done. simpl. lia.
    + by rewrite !filter_app, filter_cons_False by (by intros ?).
  - rewrite unsubscribe_absent by done.
    split_and!; [done| |done|exact Hnotify].
    replace (filter (λ x, x = l) ls) with (@nil nat); [done|].
    symmetry. clear Hnotify. induction ls as [|x ls IH]; [done|].
    rewrite filter_cons_False by set_solver. apply IH. set_solver.
Qed.

Lemma keepLast_fold {A} (logs prev : list A) :
  (length prev <= 50)%nat →
  foldl Log.keepLast prev logs =
    drop (length (prev ++ logs) - 50) (prev ++ logs) ∧
  (length (foldl Log.keepLast prev logs) <= 50)%nat.
Proof.
  revert prev. induction logs as [|x logs IH]; intros prev Hprev.
  - simpl. rewrite app_nil_r.
    replace (length prev - 50)%nat with 0%nat by lia. done.
  - simpl.
    assert (length (Log.keepLast prev x) <= 50)%nat as Hlen.
    { unfold Log.keepLast. rewrite length_drop, length_app. simpl. lia. }
    destruct (IH (Log.keepLast prev x) Hlen) as [-> Hle].
    split; [|rewrite length_drop, !length_app in *; lia].
    unfold Log.keepLast.
    rewrite (assoc_L (++) prev [x] logs : prev ++ x :: logs = (prev ++ [x]) ++ logs).
    set (all := prev ++ [x]).
    assert (length all <= 51)%nat as Hall
      by (unfold all; rewrite length_app; simpl; lia).
    rewrite <-(drop_app_le all logs (length all - 50)) by lia.
    rewrite drop_drop. f_equal.
    rewrite !length_app, length_drop, length_app. lia.
Qed.

(** X21. The debug console keeps the newest 50 log entries: starting from
    an empty console, after any sequence of entries it shows exactly the
    last 50 of them in order (all of them while there are at most 50), and
    the newest entry is always the last one shown. *)
Theorem X21_console_keeps_last_50 {A} (logs : list A) :
  foldl Log.keepLast [] logs = drop (length logs - 50) logs ∧
  (length (foldl Log.keepLast [] logs) <= 50)%nat ∧
  ((length logs <= 50)%nat → foldl Log.keepLast [] logs = logs) ∧
  (∀ (prev : list A) (log : A), last (Log.keepLast prev log) = Some log).
Proof.
  destruct (keepLast_fold logs []) as [Hf Hl]; [simpl; lia|].
  simpl in Hf. split_and!; [done|done| |].
  - intros Hle. rewrite Hf.
    by replace (length logs - 50)%nat with 0%nat by lia.
  - intros prev log. unfold Log.keepLast.
    rewrite drop_app_le by (rewrite length_app; simpl; lia).
    apply last_snoc.
Qed.

End Neighbours.

(** ** More concrete instances *)

Section MoreInstances.
Import Sim.
Local Open Scope R_scope.

(** X4 at the two films of the scenario, a random source that always
    returns 0.5 and a mounted 800 x 600 container. *)
Lemma X4_witness :
  Forall (startsAt (Some (800, 600)))
    (Builder.nodes (Builder.buildGraph (λ _, 0.5) scenario (Some (800, 600)))).
Proof.
  apply (X4_initial_placement (λ _, 0.5) scenario (Some (800, 600))).
  intros _. lra.
Defined.

Lemma hit_first_of_two :
  hitTest [genreNode 100 100 0 0; directorNode 103 104 0 0] 102 102 =
    Some (0%nat, genreNode 100 100 0 0).
Proof.
  apply list_find_Some. split; [reflexivity|].
  split; [unfold hit; simpl; lra|]. intros j m _ Hj. lia.
Qed.

(** X8 at a press inside two overlapping hit areas, then a move. *)
Lemma X8_witness :
  let s := stage [genreNode 100 100 0 0; directorNode 103 104 0 0] [] None in
  hitTest (nodes s) 102 102 = Some (0%nat, genreNode 100 100 0 0) ∧
  dragging (run [MouseDown 102 102; MouseMove 50 60] s) = Some 0%nat ∧
  nodes (run [MouseDown 102 102; MouseMove 50 60] s) !! 0%nat =
    Some (stop (Node.set_y 60 (Node.set_x 50 (genreNode 100 100 0 0)))).
Proof.
  split; [exact hit_first_of_two|].
  destruct (X8_press_then_move
              (stage [genreNode 100 100 0 0; directorNode 103 104 0 0] [] None)
              102 102 50 60 0 (genreNode 100 100 0 0) hit_first_of_two)
    as (Hd & Hn & _).
  split; [exact Hd|exact Hn].
Defined.

Lemma animate_atTheEdge :
  nodes (animate atTheEdge) !! 0%nat = Some (directorNode 16 300 0 0).
Proof.
  destruct (animate_dragged atTheEdge 0 (directorNode 5 300 0 0) 800 600
              eq_refl eq_refl (viewport_stage _ _ _)) as (m & _ & -> & ->).
  - unfold bounce, directorNode. eval_layer bounceLeft. eval_layer bounceRight.
    eval_layer bounceTop. eval_layer bounceBottom. do 2 f_equal; lra.
  - apply clearOfOthers_alone.
Qed.

(** X9 at the dragged node that the pointer took left of the left bound. *)
Lemma X9_witness :
  viewport atTheEdge = Some (800, 600) ∧
  nodes (animate atTheEdge) !! 0%nat = Some (directorNode 16 300 0 0) ∧
  inBounds 800 600 (directorNode 16 300 0 0).
Proof.
  split; [apply viewport_stage|]. split; [exact animate_atTheEdge|].
  apply (X9_frame_contains_nodes atTheEdge 800 600 0 (directorNode 16 300 0 0)
           (viewport_stage _ _ _) animate_atTheEdge); simpl; lra.
Defined.

(** X10 at a free node that enters the pass at speed 50. *)
Lemma X10_witness :
  speed (updateNode 800 600 None None 0 (genreNode 400 300 40 30)) <= 12.75.
Proof.
  apply (X10_speed_after_damping 800 600 None None [genreNode 400 300 40 30] 0);
    [discriminate|reflexivity].
Defined.

(** X11 at a one-node array with a drag reference to index 5. *)
Lemma X11_witness :
  nodes (animate (stage [genreNode 100 100 0 0] [] (Some 5%nat))) =
  nodes (animate (handleMouseUp (stage [genreNode 100 100 0 0] [] (Some 5%nat)))).
Proof.
  apply (X11_stale_drag_is_no_drag (stage [genreNode 100 100 0 0] [] (Some 5%nat)) 5);
    [reflexivity|simpl; lia].
Defined.

Lemma sqrt_example (dx dy d : R) :
  0 <= d → dx * dx + dy * dy = d * d → sqrt (dx * dx + dy * dy) = d.
Proof. intros Hd ->. by apply sqrt_square. Qed.

(** X16 at a film and a genre 150 apart: the edge is stretched and the
    impulse on the film points toward the genre. *)
Lemma X16_witness :
  let ns := [filmNode 200 300 0 0; genreNode 350 300 0 0] in
  let d := sqrt ((350 - 200) * (350 - 200) + (300 - 300) * (300 - 300)) in
  let fx := (350 - 200) / d * ((d - springLength) * k) in
  let fy := (300 - 300) / d * ((d - springLength) * k) in
  springLength < d ∧
  spring None ns (Link.mk "f-1" "g-Drama") !! 0%nat =
    Some (push fx fy (filmNode 200 300 0 0)) ∧
  0 < fx * (350 - 200) + fy * (300 - 300).
Proof.
  intros ns d fx fy.
  assert (d = 150) as Hd by (apply sqrt_example; lra).
  assert (springLength < d) as Hlong by (rewrite Hd; unfold springLength; lra).
  split; [exact Hlong|].
  destruct (X16_spring_restores None ns (Link.mk "f-1" "g-Drama") 0 1
              (filmNode 200 300 0 0) (genreNode 350 300 0 0) eq_refl eq_refl
              ltac:(discriminate) ltac:(discriminate) ltac:(discriminate))
    as (Hs & _ & _ & Hpos & _).
  - change (0 < d). lra.
  - split; [exact Hs|]. exact (Hpos Hlong).
Defined.

(** X17 at two nodes five units apart. *)
Lemma X17_witness :
  let ns := [genreNode 100 100 0 0; directorNode 103 104 0 0] in
  let d := sqrt ((100 - 103) * (100 - 103) + (100 - 104) * (100 - 104)) in
  let fx := (100 - 103) / d * (repulsion / (d * d)) in
  let fy := (100 - 104) / d * (repulsion / (d * d)) in
  0 < d < 300 ∧
  repel 0 ns 1 !! 0%nat = Some (push fx fy (genreNode 100 100 0 0)) ∧
  sqrt (fx * fx + fy * fy) = repulsion / (d * d).
Proof.
  intros ns d fx fy.
  assert (d = 5) as Hd by (apply sqrt_example; lra).
  assert (0 < d < 300) as Hnear by (rewrite Hd; lra).
  split; [exact Hnear|].
  destruct (X17_repulsion_pushes_apart ns 0 1 (genreNode 100 100 0 0)
              (directorNode 103 104 0 0) eq_refl eq_refl ltac:(discriminate))
    as (_ & Hrep).
  destruct (Hrep Hnear) as (Ha & _ & _ & _ & Hsize).
  split; [exact Ha|exact Hsize].
Defined.

End MoreInstances.
